(** * News aggregator API: TTL cache, article store, personalization
      aggregator and background scheduler.

    Shallow embedding of
      - src/services/cacheService.js   (module [CacheService])
      - src/models/Article.js          (module [Article])
      - src/services/newsService.js    (module [NewsService])
      - the background job service     (module [BackgroundJobService])
      - the article controller         (module [ArticleController])
    followed by the properties proved about them.

    Conventions.  A JS [Map] used as a dictionary is a [gmap], a JS [Set]
    is a [gset]; their iteration ([entries()], [keys()], [values()],
    [Array.from]) is [map_to_list] / [elements], which enumerates every
    entry exactly once.  Clock readings ([Date.now()], [new Date()]) are
    explicit arguments in milliseconds ([Z]); an ISO timestamp produced by
    [toISOString()] is represented by the millisecond count it renders.
    A JS string is a [string], one character per code unit. *)

From Stdlib Require Import ZArith String Ascii List Lia.
From stdpp Require Import gmap strings list sorting fin_maps.

Set Warnings "-clear-no-such-hyp".

(* ===================================================================== *)
(** ** src/services/cacheService.js *)
(* ===================================================================== *)

Module CacheService.

Section Keys.
(** [params] is a plain JS object: an insertion-ordered property
    list.  [render] is the string conversion that a template literal
    applies to a property value. *)
Context {P : Type} (render : P → string).

(** [params[key]] *)
Fixpoint getProp (params : list (string * P)) (key : string) : option P :=
  match params with
  | [] => None
  | (k, v) :: rest => if decide (k = key) then Some v else getProp rest key
  end.

(** [Array.prototype.join] *)
Fixpoint join (sep : string) (l : list string) : string :=
  match l with
  | [] => ""
  | [x] => x
  | x :: rest => x +:+ sep +:+ join sep rest
  end.

(** [`${key}:${params[key]}`]; a missing property prints as
    [undefined]. *)
Definition renderParam (params : list (string * P)) (key : string) : string :=
  key +:+ ":" +:+ from_option render "undefined" (getProp params key).

(** [generateKey(prefix, params = {})] *)
Definition generateKey (prefix : string) (params : list (string * P)) : string :=
  let sortedParams :=
    join "|" (map (renderParam params) (merge_sort String.le (params.*1))) in
  prefix +:+ ":" +:+ sortedParams.
End Keys.

Section Store.
(** [V] is the type of the non-null values put in the cache; a JS
    value is an [option V] whose [None] is [null], the miss signal. *)
Context {V : Type}.

Record entry := Entry { value : option V; expiresAt : Z; cachedAt : Z }.

(** The service object: [this.cache] and [this.ttl]. *)
Record t := Cache { cache : gmap string entry; ttl : Z }.

(** [constructor()] *)
Definition new : t := Cache ∅ (5 * 60 * 1000).

(** [set(key, value, ttl = this.ttl)]; [now] is what [Date.now()] reads
    and [stamp] what the following [new Date()] reads. *)
Definition set (c : t) (key : string) (v : option V) (ttl_arg : option Z)
    (now stamp : Z) : t :=
  let ttl_ms := default (ttl c) ttl_arg in
  let expiresAt := (now + ttl_ms)%Z in
  Cache (<[key := Entry v expiresAt stamp]> (cache c)) (ttl c).

(** [get(key)] run when the clock reads [now]: the returned value and
    the cache afterwards. *)
Definition get (c : t) (key : string) (now : Z) : option V * t :=
  match cache c !! key with
  | None => (None, c)
  | Some e =>
      if decide (now > expiresAt e)%Z
      then (None, Cache (delete key (cache c)) (ttl c))
      else (value e, c)
  end.

(** [has(key)] *)
Definition has (c : t) (key : string) (now : Z) : bool * t :=
  let '(v, c') := get c key now in
  (match v with Some _ => true | None => false end, c').

(** [delete(key)] *)
Definition delete_ (c : t) (key : string) : bool * t :=
  (bool_decide (is_Some (cache c !! key)),
   Cache (delete key (cache c)) (ttl c)).

(** [clear()] *)
Definition clear (c : t) : t := Cache ∅ (ttl c).

(** [clearExpired()] *)
Definition clearExpired (c : t) (now : Z) : t :=
  Cache
    (foldr (λ '(key, e) m, if decide (now > expiresAt e)%Z
                           then delete key m else m)
           (cache c) (map_to_list (cache c)))
    (ttl c).

(** [setDefaultTTL(ttl)] *)
Definition setDefaultTTL (c : t) (ttl_ms : Z) : t := Cache (cache c) ttl_ms.

Record cacheStats := CacheStats {
  total : nat;
  valid : nat;
  expired : nat;
  defaultTtl : Z
}.

(** one round of the loop of [getStats]: the counters [expired], [valid] *)
Definition tally (now : Z) (acc : nat * nat) (e : entry) : nat * nat :=
  let '(expired, valid) := acc in
  if decide (now > expiresAt e)%Z then (S expired, valid) else (expired, S valid).

(** [getStats()] run when the clock reads [now] *)
Definition getStats (c : t) (now : Z) : cacheStats :=
  let '(expired, valid) := foldl (tally now) (0, 0) (map_to_list (cache c)).*2 in
  CacheStats (size (cache c)) valid expired (ttl c).

(** [getKeys()]: the keys of the entries.  The list is in the order of
    the finite map, not in the insertion order of the [Map]; the order
    is not modelled. *)
Definition getKeys (c : t) : list string := (map_to_list (cache c)).*1.

(** Calls on the service, and a sequence of them run in order. *)
Inductive call :=
  | CallSet (key : string) (v : option V) (ttl_arg : option Z) (now stamp : Z)
  | CallGet (key : string) (now : Z)
  | CallHas (key : string) (now : Z)
  | CallDelete (key : string)
  | CallClear
  | CallClearExpired (now : Z).

(** the call is a [set] or a [delete] of [key], or a [clear] *)
Definition writes (o : call) (key : string) : Prop :=
  match o with
  | CallSet k _ _ _ _ | CallDelete k => k = key
  | CallClear => True
  | CallGet _ _ | CallHas _ _ | CallClearExpired _ => False
  end.

(** a [get] or [has] of [key], or a sweep, among the calls runs no later
    than [now] *)
Definition notLater (o : call) (key : string) (now : Z) : Prop :=
  match o with
  | CallGet k t | CallHas k t => k = key → (t ≤ now)%Z
  | CallClearExpired t => (t ≤ now)%Z
  | CallSet _ _ _ _ _ | CallDelete _ | CallClear => True
  end.

(** What calls that do not write [key] leave of its entry: the entry
    itself, or nothing once a [get], a [has] or a sweep has found it
    expired. *)
Definition survives (now : Z) (key : string) (e : entry) (c : t) : Prop :=
  cache c !! key = Some e
  ∨ (cache c !! key = None ∧ (expiresAt e < now)%Z).

Definition exec (c : t) (o : call) : t :=
  match o with
  | CallSet key v ttl_arg now stamp => set c key v ttl_arg now stamp
  | CallGet key now => (get c key now).2
  | CallHas key now => (has c key now).2
  | CallDelete key => (delete_ c key).2
  | CallClear => clear c
  | CallClearExpired now => clearExpired c now
  end.

Definition run (c : t) (calls : list call) : t := foldl exec c calls.
End Store.

Arguments entry : clear implicits.
Arguments t : clear implicits.
Arguments call : clear implicits.
End CacheService.

(* ===================================================================== *)
(** ** src/models/Article.js *)
(* ===================================================================== *)

Module Article.

(** *** [Buffer.from(url).toString("base64")]

    The two runtime calls are modelled after their definition: UTF-8 for
    code units below 256, and the base64 alphabet of RFC 4648 with [=]
    padding. *)

Definition utf8_char (c : ascii) : list ascii :=
  let n := N_of_ascii c in
  if decide (n < 128)%N then [c]
  else [ascii_of_N (192 + n / 64); ascii_of_N (128 + n mod 64)].

Definition utf8 (s : string) : list ascii :=
  concat (map utf8_char (list_ascii_of_string s)).

Definition b64_alphabet : list ascii :=
  list_ascii_of_string
    "ABCDEFGHIJKLMNOPQRSTUVWXYZabcdefghijklmnopqrstuvwxyz0123456789+/".

Definition b64_digit (n : N) : ascii :=
  default "="%char (b64_alphabet !! N.to_nat n).

(** the position of a digit in the alphabet *)
Definition b64_value (c : ascii) : option N :=
  (λ i, N.of_nat i.1) <$> list_find (λ d, d = c) b64_alphabet.

(** The four 6-bit groups of a 3-byte block [x y z]. *)
Definition sextet1 (x : N) : N := (x / 4)%N.
Definition sextet2 (x y : N) : N := (x mod 4 * 16 + y / 16)%N.
Definition sextet3 (y z : N) : N := (y mod 16 * 4 + z / 64)%N.
Definition sextet4 (z : N) : N := (z mod 64)%N.

Fixpoint base64 (bytes : list ascii) : list ascii :=
  match bytes with
  | [] => []
  | [a] =>
      let x := N_of_ascii a in
      [b64_digit (sextet1 x); b64_digit (sextet2 x 0); "="%char; "="%char]
  | [a; b] =>
      let x := N_of_ascii a in
      let y := N_of_ascii b in
      [b64_digit (sextet1 x); b64_digit (sextet2 x y);
       b64_digit (sextet3 y 0); "="%char]
  | a :: b :: c :: rest =>
      let x := N_of_ascii a in
      let y := N_of_ascii b in
      let z := N_of_ascii c in
      b64_digit (sextet1 x) :: b64_digit (sextet2 x y)
      :: b64_digit (sextet3 y z) :: b64_digit (sextet4 z)
      :: base64 rest
  end.

(** *** The store *)

Definition userId := nat.

Record source := Source { source_name : string; source_url : string }.

(** An article as the provider delivers it. *)
Record article := MkArticle {
  url : string;
  title : string;
  description : string;
  content : string;
  image : string;
  publishedAt : string;
  source_ : source
}.

(** A value of [this.articleMetadata]. *)
Record metadata := Metadata {
  id : string;
  m_url : string;
  m_title : string;
  m_description : string;
  m_content : string;
  m_image : string;
  m_publishedAt : string;
  m_source : source;
  cachedAt : Z
}.

(** A value of a user's favorites map: [{...metadata, favoritedAt}], or
    the minimal [{id, favoritedAt}]. *)
Inductive favorite :=
  | FavSnapshot (m : metadata) (favoritedAt : Z)
  | FavMinimal (id : string) (favoritedAt : Z).

Record t := Store {
  readArticles : gmap userId (gset string);
  favoriteArticles : gmap userId (gmap string favorite);
  articleMetadata : gmap string metadata
}.

(** [constructor()] *)
Definition new : t := Store ∅ ∅ ∅.

(** [generateArticleId(url)] *)
Definition generateArticleId (url : string) : string :=
  string_of_list_ascii (take 32 (base64 (utf8 url))).

(** [storeArticleMetadata(article)]; [now] is the [new Date()] of
    [cachedAt]. *)
Definition storeArticleMetadata (st : t) (a : article) (now : Z) : string * t :=
  let articleId := generateArticleId (url a) in
  (articleId,
   match articleMetadata st !! articleId with
   | Some _ => st
   | None =>
       Store (readArticles st) (favoriteArticles st)
         (<[articleId :=
              Metadata articleId (url a) (title a) (description a) (content a)
                (image a) (publishedAt a) (source_ a) now]>
            (articleMetadata st))
   end).

(** [getArticleMetadata(articleId)] *)
Definition getArticleMetadata (st : t) (articleId : string) : option metadata :=
  articleMetadata st !! articleId.

(** The two statements shared by [markAsRead] and [markAsReadById]:
    create the user's read set if missing, then [add(articleId)]. *)
Definition addRead (st : t) (u : userId) (articleId : string) : t :=
  let reads :=
    match readArticles st !! u with
    | Some _ => readArticles st
    | None => <[u := ∅]> (readArticles st)
    end in
  Store (<[u := {[articleId]} ∪ default ∅ (reads !! u)]> reads)
    (favoriteArticles st) (articleMetadata st).

Record readResult := ReadResult { r_articleId : string; markedAt : Z }.

(** [markAsRead(userId, article)] *)
Definition markAsRead (st : t) (u : userId) (a : article) (now now' : Z)
    : readResult * t :=
  let '(articleId, st1) := storeArticleMetadata st a now in
  (ReadResult articleId now', addRead st1 u articleId).

(** [markAsReadById(userId, articleId)] *)
Definition markAsReadById (st : t) (u : userId) (articleId : string) (now : Z)
    : readResult * t :=
  (ReadResult articleId now, addRead st u articleId).

(** [isRead(userId, articleId)] *)
Definition isRead (st : t) (u : userId) (articleId : string) : bool :=
  match readArticles st !! u with
  | Some s => bool_decide (articleId ∈ s)
  | None => false
  end.

(** [getReadArticles(userId)] *)
Definition getReadArticles (st : t) (u : userId) : list metadata :=
  match readArticles st !! u with
  | None => []
  | Some s =>
      let readIds := elements s in
      omap (λ id, articleMetadata st !! id) readIds
  end.

(** The favorites-map update shared by the two favorite calls. *)
Definition putFavorite (st : t) (u : userId) (articleId : string)
    (f : favorite) : t :=
  let favs :=
    match favoriteArticles st !! u with
    | Some _ => favoriteArticles st
    | None => <[u := ∅]> (favoriteArticles st)
    end in
  Store (readArticles st)
    (<[u := <[articleId := f]> (default ∅ (favs !! u))]> favs)
    (articleMetadata st).

Record favoriteResult := FavoriteResult { f_articleId : string; favoritedAt : Z }.

(** [markAsFavorite(userId, article)]; the three clock readings are
    [cachedAt], the stored [favoritedAt] and the returned one. *)
Definition markAsFavorite (st : t) (u : userId) (a : article)
    (now now' now'' : Z) : favoriteResult * t :=
  let '(articleId, st1) := storeArticleMetadata st a now in
  let f :=
    match articleMetadata st1 !! articleId with
    | Some m => FavSnapshot m now'
    | None => FavMinimal articleId now'
    end in
  (FavoriteResult articleId now'', putFavorite st1 u articleId f).

(** [markAsFavoriteById(userId, articleId)] *)
Definition markAsFavoriteById (st : t) (u : userId) (articleId : string)
    (now : Z) : favoriteResult * t :=
  let f :=
    match articleMetadata st !! articleId with
    | Some m => FavSnapshot m now
    | None => FavMinimal articleId now
    end in
  (FavoriteResult articleId now, putFavorite st u articleId f).

(** [removeFavorite(userId, articleId)] *)
Definition removeFavorite (st : t) (u : userId) (articleId : string) : bool * t :=
  match favoriteArticles st !! u with
  | None => (false, st)
  | Some favMap =>
      (bool_decide (is_Some (favMap !! articleId)),
       Store (readArticles st)
         (<[u := delete articleId favMap]> (favoriteArticles st))
         (articleMetadata st))
  end.

(** [isFavorite(userId, articleId)] *)
Definition isFavorite (st : t) (u : userId) (articleId : string) : bool :=
  match favoriteArticles st !! u with
  | Some favMap => bool_decide (is_Some (favMap !! articleId))
  | None => false
  end.

(** [getFavoriteArticles(userId)] *)
Definition getFavoriteArticles (st : t) (u : userId) : list favorite :=
  match favoriteArticles st !! u with
  | None => []
  | Some favMap => (map_to_list favMap).*2
  end.

Record stats := Stats {
  totalRead : nat;
  totalFavorites : nat;
  totalArticlesTracked : nat
}.

(** [getUserStats(userId)] *)
Definition getUserStats (st : t) (u : userId) : stats :=
  let readCount :=
    match readArticles st !! u with Some s => size s | None => 0 end in
  let favoriteCount :=
    match favoriteArticles st !! u with Some m => size m | None => 0 end in
  Stats readCount favoriteCount (size (articleMetadata st)).

(** [toDelete.indexOf(id)] *)
Fixpoint indexOf (l : list string) (x : string) : option nat :=
  match l with
  | [] => None
  | y :: rest => if decide (y = x) then Some 0 else S <$> indexOf rest x
  end.

(** [index = toDelete.indexOf(id); if (index > -1) toDelete.splice(index, 1)] *)
Definition unmark (toDelete : list string) (x : string) : list string :=
  match indexOf toDelete x with
  | Some index => delete index toDelete
  | None => toDelete
  end.

Definition sevenDays : Z := 7 * 24 * 60 * 60 * 1000.

(** [clearOldMetadata(maxAge = 7 * 24 * 60 * 60 * 1000)] run when the
    clock reads [now]: the returned count and the store afterwards. *)
Definition clearOldMetadata (st : t) (maxAge_arg : option Z) (now : Z)
    : nat * t :=
  let maxAge := default sevenDays maxAge_arg in
  let toDelete :=
    omap (λ '(id, a), if decide (now - cachedAt a > maxAge)%Z
                      then Some id else None)
         (map_to_list (articleMetadata st)) in
  let toDelete :=
    foldl (λ td favMap, foldl unmark td (map_to_list favMap).*1)
          toDelete (map_to_list (favoriteArticles st)).*2 in
  (length toDelete,
   Store (readArticles st) (favoriteArticles st)
     (foldl (λ md id, delete id md) (articleMetadata st) toDelete)).

(** [id] is a key of some user's favorites map. *)
Definition favorited (st : t) (articleId : string) : Prop :=
  ∃ u favMap,
    favoriteArticles st !! u = Some favMap ∧ is_Some (favMap !! articleId).

(** the age of a metadata entry exceeds [maxAge] *)
Definition stale (maxAge now : Z) (a : metadata) : Prop :=
  (now - cachedAt a > maxAge)%Z.

(** Every metadata entry is filed under its own [id]. *)
Definition consistent (st : t) : Prop :=
  ∀ key m, articleMetadata st !! key = Some m → id m = key.

(** the [id] property of a favorites entry *)
Definition favoriteId (f : favorite) : string :=
  match f with
  | FavSnapshot m _ => id m
  | FavMinimal k _ => k
  end.

(** the [favoritedAt] property of a favorites entry *)
Definition favoriteTime (f : favorite) : Z :=
  match f with
  | FavSnapshot _ t | FavMinimal _ t => t
  end.

(** Every metadata entry is filed under the id derived from its own URL,
    and every favorites entry under its own id. *)
Definition keyed (st : t) : Prop :=
  (∀ key m, articleMetadata st !! key = Some m →
     id m = key ∧ key = generateArticleId (m_url m))
  ∧ (∀ u favMap key f, favoriteArticles st !! u = Some favMap →
       favMap !! key = Some f → favoriteId f = key).

(** Every full favorites entry is a copy of the metadata now stored
    under its id. *)
Definition snapshots_current (st : t) : Prop :=
  ∀ u favMap key m at_, favoriteArticles st !! u = Some favMap →
    favMap !! key = Some (FavSnapshot m at_) →
    articleMetadata st !! key = Some m.

(** The stores the exported singleton goes through. *)
Inductive reachable : t → Prop :=
  | visit_new : reachable new
  | visit_storeArticleMetadata st a now :
      reachable st → reachable (storeArticleMetadata st a now).2
  | visit_markAsRead st u a now now' :
      reachable st → reachable (markAsRead st u a now now').2
  | visit_markAsReadById st u articleId now :
      reachable st → reachable (markAsReadById st u articleId now).2
  | visit_markAsFavorite st u a now now' now'' :
      reachable st → reachable (markAsFavorite st u a now now' now'').2
  | visit_markAsFavoriteById st u articleId now :
      reachable st → reachable (markAsFavoriteById st u articleId now).2
  | visit_removeFavorite st u articleId :
      reachable st → reachable (removeFavorite st u articleId).2
  | visit_clearOldMetadata st maxAge_arg now :
      reachable st → reachable (clearOldMetadata st maxAge_arg now).2.

End Article.

(* ===================================================================== *)
(** ** src/services/newsService.js *)
(* ===================================================================== *)

Module NewsService.
Import Article.

(** The object a search resolves to.  [totalArticles] and [articles] are
    optional because the fallback object of [getPersonalizedNews] has no
    [totalArticles] and because [articles] is read behind a truthiness
    test; an absent [fromCache] is [false]. *)
Record searchResult := SearchResult {
  success : bool;
  totalArticles : option nat;
  articles : option (list article);
  fromCache : bool
}.

(** The body of a 2xx provider response: [response.data]. *)
Record apiData := ApiData {
  d_totalArticles : option nat;
  d_articles : option (list article)
}.

(** What [axios.get] rejects with. *)
Inductive axiosFailure :=
  | HttpFailure (status : Z) (firstError message : option string)
  | NoResponse
  | OtherFailure (message : option string).

(** The [Error] built by [handleError]. *)
Record apiError := ApiError {
  e_message : string;
  e_status : Z;
  isApiError : bool;
  isNetworkError : bool
}.

(** [a || b] on possibly missing strings: the empty string is falsy. *)
Definition orElse (a : option string) (b : string) : string :=
  match a with
  | Some s => if decide (s = "") then b else s
  | None => b
  end.

(** [handleError(error)] *)
Definition handleError (error : axiosFailure) : apiError :=
  match error with
  | HttpFailure status firstError message =>
      let msg := orElse firstError (orElse message "News API error") in
      let msg :=
        if decide (status = 400)%Z then "Invalid request to news API"
        else if decide (status = 401)%Z then "Invalid API key for news service"
        else if decide (status = 403)%Z then "Access forbidden to news API"
        else if decide (status = 429)%Z then "Rate limit exceeded for news API"
        else if decide (status = 500)%Z then "News API server error"
        else msg in
      ApiError msg status true false
  | NoResponse =>
      ApiError "Unable to reach news API. Please try again later." 503 false true
  | OtherFailure message =>
      ApiError (orElse message "Failed to fetch news") 500 false false
  end.

(** The service object; [baseUrl] only names the endpoint. *)
Record t := Service { apiKey : option string; cacheTTL : Z }.

(** [constructor()] *)
Definition new (apiKey : option string) : t := Service apiKey (5 * 60 * 1000).

Abbreviation cache := (CacheService.t searchResult).

(** [searchNews(query)].  [now] is the clock at the cache probe; [reply]
    is what the provider call settles to, [now'] and [stamp] are the two
    clock readings of the write-back.  Returns what the promise settles
    to and the cache afterwards. *)
Definition searchNews (svc : t) (c : cache) (query : string) (now : Z)
    (reply : axiosFailure + apiData) (now' stamp : Z)
    : (apiError + searchResult) * cache :=
  let cacheKey := CacheService.generateKey (λ v : string, v) "search" [("query", query)] in
  match CacheService.get c cacheKey now with
  | (Some cachedData, c1) =>
      (inr (SearchResult (success cachedData) (totalArticles cachedData)
              (articles cachedData) true), c1)
  | (None, c1) =>
      match reply with
      | inr data =>
          let result :=
            SearchResult true (d_totalArticles data) (d_articles data) false in
          (inr result,
           CacheService.set c1 cacheKey (Some result) (Some (cacheTTL svc))
             now' stamp)
      | inl error => (inl (handleError error), c1)
      end
  end.

Section Personalize.
(** [settle i preference] is what the promise [this.searchNews(preference)]
    created for the [i]-th preference settles to. *)
Variable settle : nat → string → apiError + searchResult.

(** [this.searchNews(preference).catch(err => ...)] *)
Definition caught (i : nat) (preference : string) : searchResult :=
  match settle i preference with
  | inr result => result
  | inl err => SearchResult true None (Some []) false
  end.

(** the body of the inner [forEach]: [allArticles] and [seenUrls] *)
Definition collect (acc : list article * gset string) (a : article)
    : list article * gset string :=
  let '(allArticles, seenUrls) := acc in
  if decide (url a ∈ seenUrls) then acc
  else (allArticles ++ [a], {[url a]} ∪ seenUrls).

(** the body of the outer [forEach] *)
Definition collectResult (acc : list article * gset string)
    (result : searchResult) : list article * gset string :=
  match articles result with
  | Some l => foldl collect acc l
  | None => acc
  end.

Definition max : nat := 10.

(** [getPersonalizedNews(preferences)]; [None] is a missing preference
    list.  The source also computes [articlesPerPreference], which it
    never uses. *)
Definition getPersonalizedNews (preferences : option (list string))
    : apiError + searchResult :=
  match preferences with
  | None | Some [] => inr (SearchResult true (Some 0) (Some []) false)
  | Some prefs =>
      let results := imap caught prefs in
      let '(allArticles, _) := foldl collectResult ([], ∅) results in
      let limitedArticles := take max allArticles in
      inr (SearchResult true (Some (length limitedArticles))
             (Some limitedArticles) false)
  end.
End Personalize.

(** A personalized request against cache [c]: the probes of all
    preferences run back to back inside the synchronous [map], before any
    provider response arrives, so every search reads [c]; [reply i p] is
    the provider's answer to the [i]-th search. *)
Definition personalize (svc : t) (c : cache) (now : Z)
    (reply : nat → string → axiosFailure + apiData)
    (preferences : option (list string)) : apiError + searchResult :=
  getPersonalizedNews
    (λ i p, (searchNews svc c p now (reply i p) now now).1) preferences.

(** [isConfigured()] *)
Definition isConfigured (svc : t) : bool :=
  match apiKey svc with
  | Some k => bool_decide (k ≠ "" ∧ k ≠ "your_gnews_api_key_here")
  | None => false
  end.

(** Following the specification's wording of the merge: every URL at most
    once, the first occurrence wins. *)
Fixpoint firstOccurrences (l : list article) : list article :=
  match l with
  | [] => []
  | a :: rest =>
      a :: filter (λ b, url b ≠ url a) (firstOccurrences rest)
  end.

(** The merge loop seen as a function of the URLs already taken. *)
Fixpoint dedupFrom (seenUrls : gset string) (l : list article) : list article :=
  match l with
  | [] => []
  | a :: rest =>
      if decide (url a ∈ seenUrls) then dedupFrom seenUrls rest
      else a :: dedupFrom ({[url a]} ∪ seenUrls) rest
  end.

(** [result.articles] when truthy, no article otherwise *)
Definition resultArticles (result : searchResult) : list article :=
  default [] (articles result).

(** The article list of a search that succeeded. *)
Definition succeeded (o : apiError + searchResult) : option (list article) :=
  match o with
  | inr result => Some (resultArticles result)
  | inl _ => None
  end.

(** A failed search replaced by a successful search without articles. *)
Definition emptied (o : apiError + searchResult) : apiError + searchResult :=
  match o with
  | inr result => inr result
  | inl _ => inr (SearchResult true None (Some []) false)
  end.

(** The article list a preference contributes: what its search returned,
    nothing when the search failed. *)
Definition contribution (o : apiError + searchResult) : list article :=
  match o with
  | inr result => default [] (articles result)
  | inl _ => []
  end.

(** An article for the worked examples. *)
Definition sampleArticle (u : string) : article :=
  MkArticle u "title" "description" "content" "image" "2025-10-25"
    (Source "source" "https://source.example").

End NewsService.

(* ===================================================================== *)
(** ** The background job service *)
(* ===================================================================== *)

Module BackgroundJobService.

(** The callbacks handed to [setInterval]. *)
Inductive task := UpdatePopularNewsCache | CleanupCache | CleanupOldArticles.

(** The runtime's table of intervals.  A handle is the slot that
    [setInterval] allocated; [clearInterval] empties the slot. *)
Abbreviation runtime := (list (option (task * Z))).

Definition setInterval (rt : runtime) (callback : task) (delay : Z)
    : nat * runtime :=
  (length rt, rt ++ [Some (callback, delay)]).

Definition clearInterval (rt : runtime) (handle : nat) : runtime :=
  <[handle := None]> rt.

Record intervals := Intervals {
  cacheUpdate : option nat;
  cacheCleanup : option nat;
  articleCleanup : option nat
}.

Record t := Jobs { intervals_ : intervals; isRunning : bool }.

(** [constructor()] *)
Definition new : t := Jobs (Intervals None None None) false.

Record config := Config {
  cacheUpdateInterval : option Z;
  cacheCleanupInterval : option Z;
  articleCleanupInterval : option Z
}.

(** [start(config = {})] *)
Definition start (s : t) (rt : runtime) (cfg : config) : t * runtime :=
  if isRunning s then (s, rt)
  else
    let cacheUpdateInterval := default (5 * 60 * 1000)%Z (cacheUpdateInterval cfg) in
    let cacheCleanupInterval := default (10 * 60 * 1000)%Z (cacheCleanupInterval cfg) in
    let articleCleanupInterval := default (60 * 60 * 1000)%Z (articleCleanupInterval cfg) in
    let '(h1, rt1) := setInterval rt UpdatePopularNewsCache cacheUpdateInterval in
    let '(h2, rt2) := setInterval rt1 CleanupCache cacheCleanupInterval in
    let '(h3, rt3) := setInterval rt2 CleanupOldArticles articleCleanupInterval in
    (Jobs (Intervals (Some h1) (Some h2) (Some h3)) true, rt3).

(** one round of the [forEach] in [stop]:
    [if (this.intervals[key]) { clearInterval(...); this.intervals[key] = null }] *)
Definition cancel (slot : option nat) (rt : runtime) : option nat * runtime :=
  match slot with
  | Some handle => (None, clearInterval rt handle)
  | None => (slot, rt)
  end.

(** [stop()] *)
Definition stop (s : t) (rt : runtime) : t * runtime :=
  if negb (isRunning s) then (s, rt)
  else
    let '(i1, rt1) := cancel (cacheUpdate (intervals_ s)) rt in
    let '(i2, rt2) := cancel (cacheCleanup (intervals_ s)) rt1 in
    let '(i3, rt3) := cancel (articleCleanup (intervals_ s)) rt2 in
    (Jobs (Intervals i1 i2 i3) false, rt3).

Record jobFlags := JobFlags {
  j_cacheUpdate : bool; j_cacheCleanup : bool; j_articleCleanup : bool
}.

(** [getStatus()], without the cache statistics *)
Definition getStatus (s : t) : bool * jobFlags :=
  (isRunning s,
   JobFlags (bool_decide (is_Some (cacheUpdate (intervals_ s))))
            (bool_decide (is_Some (cacheCleanup (intervals_ s))))
            (bool_decide (is_Some (articleCleanup (intervals_ s))))).

(** The intervals that are live in the runtime, with their handles. *)
Definition live (rt : runtime) : list (nat * (task * Z)) :=
  omap (λ '(h, slot), (λ x, (h, x)) <$> slot) (imap (λ h slot, (h, slot)) rt).

(** The states the service object and the runtime go through when
    [start] and [stop] are called in any order, from a fresh service
    object and a runtime holding the intervals [rt0]. *)
Inductive reachable (rt0 : runtime) : t * runtime → Prop :=
  | reach_new : reachable rt0 (new, rt0)
  | reach_start s rt cfg :
      reachable rt0 (s, rt) → reachable rt0 (start s rt cfg)
  | reach_stop s rt :
      reachable rt0 (s, rt) → reachable rt0 (stop s rt).

(** The three intervals of the service, allocated from slot [h] on. *)
Definition installed (h : nat) (d1 d2 d3 : Z) : list (nat * (task * Z)) :=
  [(h, (UpdatePopularNewsCache, d1));
   (S h, (CleanupCache, d2));
   (S (S h), (CleanupOldArticles, d3))].

(** What holds of every reachable state: stopped with no interval of the
    service, or running with its three intervals in the last three slots. *)
Definition all_or_none (rt0 : runtime) (x : t * runtime) : Prop :=
  (isRunning x.1 = false
   ∧ intervals_ x.1 = Intervals None None None
   ∧ live x.2 = live rt0)
  ∨ (isRunning x.1 = true
     ∧ ∃ rt1 d1 d2 d3,
         x.2 = rt1 ++ [Some (UpdatePopularNewsCache, d1);
                       Some (CleanupCache, d2);
                       Some (CleanupOldArticles, d3)]
         ∧ live rt1 = live rt0
         ∧ intervals_ x.1
           = Intervals (Some (length rt1)) (Some (S (length rt1)))
               (Some (S (S (length rt1))))).

End BackgroundJobService.

(* ===================================================================== *)
(** ** The article controller *)
(* ===================================================================== *)

Module ArticleController.

Record response := Response {
  status : nat;
  r_success : bool;
  r_message : string
}.

(** [removeFavorite(req, res)] with [req.user.id = u] and
    [req.params.id = articleId] *)
Definition removeFavorite (st : Article.t) (u : Article.userId)
    (articleId : string) : response * Article.t :=
  let '(removed, st') := Article.removeFavorite st u articleId in
  if negb removed
  then (Response 404 false "Article not found in favorites", st')
  else (Response 200 true "Article removed from favorites", st').

Record markResponse := MarkResponse {
  m_status : nat;
  m_message : string;
  m_articleId : string;
  m_at : Z
}.

(** [markAsRead(req, res)] *)
Definition markAsRead (st : Article.t) (u : Article.userId)
    (articleId : string) (now : Z) : markResponse * Article.t :=
  let '(result, st') := Article.markAsReadById st u articleId now in
  (MarkResponse 200 "Article marked as read" (Article.r_articleId result)
     (Article.markedAt result), st').

(** [markAsFavorite(req, res)] *)
Definition markAsFavorite (st : Article.t) (u : Article.userId)
    (articleId : string) (now : Z) : markResponse * Article.t :=
  let '(result, st') := Article.markAsFavoriteById st u articleId now in
  (MarkResponse 200 "Article marked as favorite" (Article.f_articleId result)
     (Article.favoritedAt result), st').

Record readListResponse := ReadListResponse {
  rl_status : nat;
  rl_totalRead : nat;
  rl_articles : list Article.metadata
}.

(** [getReadArticles(req, res)] *)
Definition getReadArticles (st : Article.t) (u : Article.userId)
    : readListResponse :=
  let readArticles := Article.getReadArticles st u in
  ReadListResponse 200 (length readArticles) readArticles.

Record favoriteListResponse := FavoriteListResponse {
  fl_status : nat;
  fl_totalFavorites : nat;
  fl_articles : list Article.favorite
}.

(** [getFavoriteArticles(req, res)] *)
Definition getFavoriteArticles (st : Article.t) (u : Article.userId)
    : favoriteListResponse :=
  let favoriteArticles := Article.getFavoriteArticles st u in
  FavoriteListResponse 200 (length favoriteArticles) favoriteArticles.

(** [getArticleStats(req, res)]: the status and [data] *)
Definition getArticleStats (st : Article.t) (u : Article.userId)
    : nat * Article.stats :=
  (200, Article.getUserStats st u).

(** The stores the application goes through: the three routes that
    change the store, and the periodic [cleanupOldArticles] of the
    background job service, which sweeps with a [maxAge] of 7 days. *)
Inductive served : Article.t → Prop :=
  | served_new : served Article.new
  | served_markAsRead st u articleId now :
      served st → served (markAsRead st u articleId now).2
  | served_markAsFavorite st u articleId now :
      served st → served (markAsFavorite st u articleId now).2
  | served_removeFavorite st u articleId :
      served st → served (removeFavorite st u articleId).2
  | served_cleanupOldArticles st now :
      served st →
      served (Article.clearOldMetadata st
                (Some (7 * 24 * 60 * 60 * 1000)%Z) now).2.

End ArticleController.

(* ===================================================================== *)
(** ** The user model *)
(* ===================================================================== *)

Module User.

Record user := MkUser {
  id : nat;
  email : string;
  password : string;
  name : string;
  preferences : list string;
  createdAt : Z;
  updatedAt : Z
}.

(** The model object: [this.users] and [this.currentId]. *)
Record t := Users { users : list user; currentId : nat }.

(** [constructor()] *)
Definition new : t := Users [] 1.

(** The argument of [create]; [preferences] may be missing. *)
Record userData := UserData {
  d_email : string;
  d_password : string;
  d_name : string;
  d_preferences : option (list string)
}.

(** [create(userData)]; the two clock readings are [createdAt] and
    [updatedAt]. *)
Definition create (m : t) (d : userData) (now now' : Z) : user * t :=
  let user :=
    MkUser (currentId m) (d_email d) (d_password d) (d_name d)
      (default [] (d_preferences d)) now now' in
  (user, Users (users m ++ [user]) (S (currentId m))).

(** [findByEmail(email)] *)
Definition findByEmail (m : t) (e : string) : option user :=
  snd <$> list_find (λ user, email user = e) (users m).

(** [findById(id)] *)
Definition findById (m : t) (k : nat) : option user :=
  snd <$> list_find (λ user, id user = k) (users m).

(** The properties an [updateData] object may carry; [updatedAt] is
    written after the spread and so is not among them. *)
Record updateData := UpdateData {
  upd_id : option nat;
  upd_email : option string;
  upd_password : option string;
  upd_name : option string;
  upd_preferences : option (list string);
  upd_createdAt : option Z
}.

(** [{...user, ...updateData, updatedAt: now}] *)
Definition merge (u : user) (d : updateData) (now : Z) : user :=
  MkUser (default (id u) (upd_id d)) (default (email u) (upd_email d))
    (default (password u) (upd_password d)) (default (name u) (upd_name d))
    (default (preferences u) (upd_preferences d))
    (default (createdAt u) (upd_createdAt d)) now.

(** [update(id, updateData)] *)
Definition update (m : t) (k : nat) (d : updateData) (now : Z)
    : option user * t :=
  match list_find (λ user, id user = k) (users m) with
  | None => (None, m)
  | Some (userIndex, user) =>
      let updated := merge user d now in
      (Some updated, Users (<[userIndex := updated]> (users m)) (currentId m))
  end.

(** [delete(id)] *)
Definition delete_ (m : t) (k : nat) : bool * t :=
  match list_find (λ user, id user = k) (users m) with
  | None => (false, m)
  | Some (userIndex, _) => (true, Users (delete userIndex (users m)) (currentId m))
  end.

(** [findAll()] *)
Definition findAll (m : t) : list user := users m.

(** Ids are pairwise distinct, positive and below the next id. *)
Definition fresh_ids (m : t) : Prop :=
  NoDup (id <$> users m)
  ∧ 1 ≤ currentId m
  ∧ ∀ user, user ∈ users m → 1 ≤ id user < currentId m.

(** The states the model goes through when no update overrides an id. *)
Inductive reachable : t → Prop :=
  | step_new : reachable new
  | step_create m d now now' : reachable m → reachable (create m d now now').2
  | step_update m k d now :
      reachable m → upd_id d = None → reachable (update m k d now).2
  | step_delete m k : reachable m → reachable (delete_ m k).2.

End User.

(** * src/controllers/newsController.js *)

Module NewsController.
Import Article NewsService.

(** The JSON body: a failure ([success: false], with its [message] and,
    from the [catch] block, its [error]) or the news ([success: true]). *)
Inductive body :=
  | Failure (message : string) (error : option string)
  | News (message : string) (fromCache : bool) (preferences : list string)
      (totalArticles : option nat) (articles : list article).

(** [res.status(status).json(body)] *)
Record response := Response { status : Z; body_ : body }.

(** the object that [articles.map] builds from an article *)
Definition project (a : article) : article :=
  MkArticle (url a) (title a) (description a) (content a) (image a)
    (publishedAt a) (Source (source_name (source_ a)) (source_url (source_ a))).

(** the [catch] block of [getNews], for an error of [handleError] *)
Definition failed (error : apiError) : response :=
  if isApiError error then
    Response (if decide (e_status error = 0)%Z then 500 else e_status error)
      (Failure (e_message error) (Some "News API error"))
  else if isNetworkError error then
    Response 503 (Failure (e_message error) (Some "Network error"))
  else
    Response 500
      (Failure "An error occurred while fetching news" (Some (e_message error))).

(** [getNews(req, res)]: [userId] is [req.user.id], [c] the cache when the
    request arrives, [reply] what the provider answers to each search.
    A missing [newsData.articles] makes [.map] throw a [TypeError], which
    the [catch] block answers. *)
Definition getNews (svc : NewsService.t) (users : User.t) (userId : nat)
    (c : cache) (now : Z) (reply : nat → string → axiosFailure + apiData)
    : response :=
  if negb (isConfigured svc) then
    Response 503
      (Failure "News service is not configured. Please contact administrator."
         None)
  else
    match User.findById users userId with
    | None => Response 404 (Failure "User not found" None)
    | Some user =>
        match User.preferences user with
        | [] =>
            Response 400
              (Failure "No preferences set. Please set your preferences first using PUT /api/v1/users/preferences"
                 None)
        | prefs =>
            match personalize svc c now reply (Some prefs) with
            | inl error => failed error
            | inr newsData =>
                match NewsService.articles newsData with
                | None =>
                    Response 500
                      (Failure "An error occurred while fetching news"
                         (Some "Cannot read properties of undefined (reading 'map')"))
                | Some l =>
                    Response 200
                      (News "News fetched successfully" (fromCache newsData)
                         prefs (NewsService.totalArticles newsData)
                         (project <$> l))
                end
            end
        end
    end.

End NewsController.

(* ===================================================================== *)
(** * Properties *)
(* ===================================================================== *)

Module CacheServiceProps.
Import CacheService.

Section Keys.
Context {P : Type} (render : P → string).
Implicit Types params : list (string * P).

Lemma getProp_Some_elem params key v :
  getProp params key = Some v → (key, v) ∈ params.
Proof.
  induction params as [|[k w] rest IH]; simpl; [done|].
  case_decide as Hk.
  - intros [= ->]. subst. left.
  - intros ?. right. auto.
Qed.

Lemma getProp_is_Some params key :
  is_Some (getProp params key) ↔ key ∈ params.*1.
Proof.
  induction params as [|[k w] rest IH]; simpl.
  - split; [by intros [? ?]|by intros ?%elem_of_nil].
  - case_decide as Hk; rewrite elem_of_cons.
    + split; [by left|eauto].
    + rewrite IH. split; [by right|]. by intros [->|].
Qed.

(** two property lists that agree on every lookup own the same names *)
Lemma same_lookups_same_names params1 params2 :
  NoDup params1.*1 → NoDup params2.*1 →
  (∀ key, getProp params1 key = getProp params2 key) →
  params1.*1 ≡ₚ params2.*1.
Proof.
  intros Hn1 Hn2 Heq. apply NoDup_Permutation; [done..|].
  intros key. by rewrite <-!getProp_is_Some, Heq.
Qed.

Lemma sorted_names_unique (l1 l2 : list string) :
  l1 ≡ₚ l2 → merge_sort String.le l1 = merge_sort String.le l2.
Proof.
  intros Hp. apply (Sorted_unique String.le).
  - apply (Sorted_merge_sort String.le).
  - apply (Sorted_merge_sort String.le).
  - by rewrite !merge_sort_Permutation.
Qed.

(** C7.  Whatever the prefix, two parameter objects that hold the same
    name-to-value pairs, in whatever order the pairs were inserted,
    are given the same cache key by [generateKey]: the names are sorted
    before they are joined.  A parameter object is a property list with
    pairwise distinct names, as every JS object is. *)
Theorem generateKey_insertion_order_independent
    (prefix : string) params1 params2 :
  NoDup params1.*1 → NoDup params2.*1 →
  (∀ key, getProp params1 key = getProp params2 key) →
  generateKey render prefix params1 = generateKey render prefix params2.
Proof.
  intros Hn1 Hn2 Heq. unfold generateKey.
  rewrite (sorted_names_unique _ _ (same_lookups_same_names _ _ Hn1 Hn2 Heq)).
  do 3 f_equal. apply map_ext. intros key.
  unfold renderParam. by rewrite Heq.
Qed.
End Keys.

Example generateKey_search_ai :
  generateKey id "search" [("query", "ai")] = "search:query:ai".
Proof. reflexivity. Qed.

Example generateKey_sorted :
  generateKey id "s" [("q", "ai"); ("lang", "en"); ("max", "10")]
  = "s:lang:en|max:10|q:ai".
Proof. vm_compute. reflexivity. Qed.

Section Store.
Context {V : Type}.
Implicit Types (c : t V) (e : entry V) (v : option V).

Lemma get_present c key e now :
  cache c !! key = Some e →
  get c key now =
    if decide (now ≤ expiresAt e)%Z then (value e, c)
    else (None, Cache (delete key (cache c)) (ttl c)).
Proof.
  intros He. unfold get. rewrite He.
  repeat case_decide; (done || lia).
Qed.

Lemma get_absent c key now : cache c !! key = None → get c key now = (None, c).
Proof. intros He. unfold get. by rewrite He. Qed.

Lemma set_lookup c key v ttl_arg t0 stamp :
  cache (set c key v ttl_arg t0 stamp) !! key
  = Some (Entry v (t0 + default (ttl c) ttl_arg) stamp).
Proof. unfold set. simpl. by rewrite lookup_insert_eq. Qed.

Lemma cache_eta c : Cache (cache c) (ttl c) = c.
Proof. by destruct c. Qed.

Lemma foldr_expire_hit (now : Z) (l : list (string * entry V))
    (m : gmap string (entry V)) (key : string) (e : entry V) :
  (key, e) ∈ l → (now > expiresAt e)%Z →
  foldr (λ '(k, e) m, if decide (now > expiresAt e)%Z then delete k m else m)
        m l !! key = None.
Proof.
  intros Hin Hexp. induction l as [|[k e'] l IH]; simpl.
  { by apply elem_of_nil in Hin. }
  apply elem_of_cons in Hin as [[= <- <-]|Hin].
  - rewrite decide_True by done. apply lookup_delete_eq.
  - case_decide; [|by apply IH].
    destruct (decide (k = key)) as [->|Hne].
    + apply lookup_delete_eq.
    + rewrite lookup_delete_ne by done. by apply IH.
Qed.

Lemma foldr_expire_miss (now : Z) (l : list (string * entry V))
    (m : gmap string (entry V)) (key : string) :
  (∀ e, (key, e) ∈ l → ¬ (now > expiresAt e)%Z) →
  foldr (λ '(k, e) m, if decide (now > expiresAt e)%Z then delete k m else m)
        m l !! key = m !! key.
Proof.
  intros Hall. induction l as [|[k e'] l IH]; simpl; [done|].
  assert (∀ e, (key, e) ∈ l → ¬ (now > expiresAt e)%Z) as Hall'
    by (intros e ?; apply Hall; by right).
  case_decide as Hexp; [|by apply IH].
  rewrite lookup_delete_ne; [by apply IH|].
  intros ->. by apply (Hall e'); [left|].
Qed.

(** the sweep removes exactly the entries that [get] would find expired *)
Lemma clearExpired_lookup c now key :
  cache (clearExpired c now) !! key
  = match cache c !! key with
    | Some e => if decide (now > expiresAt e)%Z then None else Some e
    | None => None
    end.
Proof.
  unfold clearExpired. cbn [cache].
  destruct (cache c !! key) as [e|] eqn:He.
  - destruct (decide (now > expiresAt e)%Z) as [Hexp|Hexp].
    + apply (foldr_expire_hit _ _ _ _ e); [by apply elem_of_map_to_list|done].
    + rewrite foldr_expire_miss; [done|].
      intros e' Hin%elem_of_map_to_list. by simplify_eq.
  - rewrite foldr_expire_miss; [done|].
    intros e' Hin%elem_of_map_to_list. by simplify_eq.
Qed.

(** a probe does not change what a later probe at the same instant
    returns, for the same key or another *)
Lemma get_get_value c key1 key2 now :
  (get (get c key1 now).2 key2 now).1 = (get c key2 now).1.
Proof.
  unfold get at 2. destruct (cache c !! key1) as [e1|] eqn:H1; [|done].
  case_decide as Hexp; [|done]. cbn [snd]. unfold get. cbn [cache].
  destruct (decide (key1 = key2)) as [<-|Hne].
  - rewrite lookup_delete_eq, H1. by rewrite decide_True.
  - rewrite lookup_delete_ne by done.
    destruct (cache c !! key2); [|done]. by case_decide.
Qed.

(** what a [get], expiring or not, leaves of the entry of [key] *)
Lemma get_survives c k t now key e :
  (k = key → (t ≤ now)%Z) →
  survives now key e c → survives now key e (get c k t).2.
Proof.
  unfold survives. intros Hlate Hc. unfold get.
  destruct (cache c !! k) as [e'|] eqn:He'; [|done].
  case_decide as Hexp; [|done]. cbn [snd cache].
  destruct (decide (k = key)) as [->|Hne].
  - right. split; [apply lookup_delete_eq|].
    destruct Hc as [Hc|[Hc ?]]; [|done]. specialize (Hlate eq_refl).
    rewrite He' in Hc. injection Hc as ->. lia.
  - by rewrite lookup_delete_ne.
Qed.

Lemma exec_survives c (o : call V) now key e :
  ¬ writes o key → notLater o key now →
  survives now key e c → survives now key e (exec c o).
Proof.
  intros Hne Hlate Hc.
  destruct o as [k w a n s|k n|k n|k| |t]; cbn [exec writes notLater] in *.
  - unfold survives, set in *. cbn [cache]. by rewrite lookup_insert_ne.
  - by apply get_survives.
  - unfold has. pose proof (get_survives c k n now key e Hlate Hc) as Hget.
    by destruct (get c k n).
  - unfold survives, delete_ in *. cbn [snd cache].
    by rewrite lookup_delete_ne.
  - done.
  - unfold survives in *. rewrite clearExpired_lookup.
    destruct Hc as [->|[-> ?]]; [|by right].
    case_decide; [right; split; [done|lia]|by left].
Qed.

Lemma run_survives c (calls : list (call V)) now key e :
  Forall (λ o, ¬ writes o key ∧ notLater o key now) calls →
  survives now key e c → survives now key e (run c calls).
Proof.
  revert c. induction calls as [|o calls IH]; intros c Hall Hc; [done|].
  apply Forall_cons in Hall as [[Ho Ht] Hall]. unfold run in *. simpl.
  apply IH; [done|]. by apply exec_survives.
Qed.

(** C2, as the code has it.  After [set(key, v, ttl)] at time [t0] and
    any calls that are not a [set] or a [delete] of [key] or a [clear]
    (so: [get] and [has] of any key, [key] included, writes to other
    keys, sweeps of expired entries), [get(key)] at time [now] returns
    [v] when [now <= t0 + ttl] and the miss signal otherwise, leaving the
    cache as it is in the first case and without the entry in the second;
    so a non-null [v] is returned if and only if [now <= expiresAt].  The
    earlier probes of [key] and the sweeps ran no later than [now]. *)
Theorem get_after_set c key v ttl_arg t0 stamp (calls : list (call V)) now :
  Forall (λ o, ¬ writes o key ∧ notLater o key now) calls →
  let expiresAt := (t0 + default (ttl c) ttl_arg)%Z in
  let c1 := run (set c key v ttl_arg t0 stamp) calls in
  get c1 key now =
    (if decide (now ≤ expiresAt)%Z then (v, c1)
     else (None, Cache (delete key (cache c1)) (ttl c1)))
  ∧ (is_Some v → ((get c1 key now).1 = v ↔ (now ≤ expiresAt)%Z))
  ∧ ((expiresAt < now)%Z → cache (get c1 key now).2 !! key = None).
Proof.
  intros Hcalls expiresAt c1.
  assert (survives now key (Entry v expiresAt stamp) c1) as [Hc1|[Hc1 Hlt]].
  { unfold c1. apply run_survives; [done|]. left. apply set_lookup. }
  - rewrite (get_present _ _ _ _ Hc1). simpl.
    split; [done|]. split.
    + intros [x ->]. case_decide; simpl; split; (done || lia).
    + intros Hlt. rewrite decide_False by lia. simpl. apply lookup_delete_eq.
  - simpl in Hlt. rewrite (get_absent _ _ _ Hc1), decide_False by lia.
    rewrite delete_id, cache_eta by done. simpl.
    split; [done|]. split; [|done].
    intros [x ->]. split; [done|lia].
Qed.

End Store.

(** C2, as stated, fails at the instant of expiry: an entry set at time 0
    with a ttl of 100 ms is still returned by a [get] at time 100. *)
Lemma get_at_expiry_instant :
  let c := set (new (V := nat)) "k" (Some 7) (Some 100%Z) 0 0 in
  ¬ ((get c "k" 100).1 = Some 7 ↔ (100 < 0 + 100)%Z).
Proof. intros c [Hv _]. specialize (Hv eq_refl). lia. Qed.

Lemma get_after_set_witness :
  (get (run (set (new (V := nat)) "k" (Some 7) (Some 100%Z) 0 0)
            [CallSet "j" (Some 1) (Some 10%Z) 5 5; CallGet "k" 50;
             CallClearExpired 60; CallGet "j" 70; CallHas "k" 80])
       "k" 100).1 = Some 7.
Proof.
  assert (Forall (λ o : call nat, ¬ writes o "k" ∧ notLater o "k" 100)
            [CallSet "j" (Some 1) (Some 10%Z) 5 5; CallGet "k" 50;
             CallClearExpired 60; CallGet "j" 70; CallHas "k" 80]) as Hcalls.
  { repeat constructor; simpl; (done || lia). }
  destruct (get_after_set new "k" (Some 7) (Some 100%Z) 0 0 _ 100 Hcalls)
    as (_ & Hiff & _).
  apply Hiff; [by eexists|simpl; lia].
Defined.

Lemma generateKey_insertion_order_independent_witness :
  generateKey (λ v : string, v) "search" [("q", "ai"); ("lang", "en")]
  = generateKey (λ v : string, v) "search" [("lang", "en"); ("q", "ai")].
Proof.
  apply generateKey_insertion_order_independent.
  - apply (bool_decide_unpack _). vm_compute. exact I.
  - apply (bool_decide_unpack _). vm_compute. exact I.
  - intros key. simpl. repeat case_decide; congruence.
Defined.

End CacheServiceProps.


Module ArticleProps.
Import Article.

(** *** The article id *)

Lemma list_ind3 {A} (Q : list A → Prop) :
  Q [] → (∀ a, Q [a]) → (∀ a b, Q [a; b]) →
  (∀ a b c l, Q l → Q (a :: b :: c :: l)) →
  ∀ l, Q l.
Proof.
  intros H0 H1 H2 H3 l.
  cut (Q l ∧ (∀ a, Q (a :: l)) ∧ (∀ a b, Q (a :: b :: l))); [tauto|].
  induction l as [|c l (IH0 & IH1 & IH2)]; [by auto|].
  split; [apply IH1|]. split; [intros a; apply IH2|].
  intros a b. by apply H3.
Qed.

Lemma b64_digit_below (n : N) :
  (n < 64)%N → n ∈ (N.of_nat <$> seq 0 64).
Proof.
  intros Hn. apply list_elem_of_fmap. exists (N.to_nat n). split; [lia|].
  apply elem_of_seq. lia.
Qed.

Lemma b64_value_digit (n : N) :
  (n < 64)%N → b64_value (b64_digit n) = Some n.
Proof.
  intros Hn%b64_digit_below. revert n Hn. apply Forall_forall.
  apply (bool_decide_unpack _). vm_compute. exact I.
Qed.

Lemma b64_digit_inj (n m : N) :
  (n < 64)%N → (m < 64)%N → b64_digit n = b64_digit m → n = m.
Proof.
  intros Hn Hm Heq. apply (f_equal b64_value) in Heq.
  rewrite !b64_value_digit in Heq by done. congruence.
Qed.

Lemma b64_digit_not_pad (n : N) : (n < 64)%N → b64_digit n ≠ "="%char.
Proof.
  intros Hn Heq. apply (f_equal b64_value) in Heq.
  rewrite b64_value_digit in Heq by done. vm_compute in Heq. discriminate.
Qed.

(** name the quotient and the remainder of [x] by the constant [k] *)
Ltac euclid x k :=
  let q := fresh "q" in
  let r := fresh "r" in
  pose proof (N.div_mod' x k);
  pose proof (N.mod_lt x k ltac:(discriminate));
  generalize dependent (N.div x k); intros q;
  generalize dependent (N.modulo x k); intros r.

Lemma byte_eq (a b : ascii) : N_of_ascii a = N_of_ascii b → a = b.
Proof. intros H. by rewrite <-(ascii_N_embedding a), H, ascii_N_embedding. Qed.

Lemma sextet1_below x : (x < 256 → sextet1 x < 64)%N.
Proof. unfold sextet1. euclid x 4%N. lia. Qed.
Lemma sextet2_below x y : (y < 256 → sextet2 x y < 64)%N.
Proof. unfold sextet2. euclid x 4%N. euclid y 16%N. lia. Qed.
Lemma sextet3_below y z : (z < 256 → sextet3 y z < 64)%N.
Proof. unfold sextet3. euclid y 16%N. euclid z 64%N. lia. Qed.
Lemma sextet4_below z : (sextet4 z < 64)%N.
Proof. unfold sextet4. euclid z 64%N. lia. Qed.

Lemma sextets_inj x y z x' y' z' :
  (x < 256 → y < 256 → z < 256 → x' < 256 → y' < 256 → z' < 256 →
   sextet1 x = sextet1 x' → sextet2 x y = sextet2 x' y' →
   sextet3 y z = sextet3 y' z' → sextet4 z = sextet4 z' →
   x = x' ∧ y = y' ∧ z = z')%N.
Proof.
  unfold sextet1, sextet2, sextet3, sextet4.
  euclid x 4%N. euclid y 16%N. euclid z 64%N.
  euclid x' 4%N. euclid y' 16%N. euclid z' 64%N.
  intros. lia.
Qed.

Lemma sextet_digit_eq (n m : N) (l1 l2 : list ascii) :
  (n < 64)%N → (m < 64)%N →
  b64_digit n :: l1 = b64_digit m :: l2 → n = m ∧ l1 = l2.
Proof. intros ?? [= ?%b64_digit_inj ?]; auto. Qed.

Lemma sextet_digit_pad (n : N) (l1 l2 : list ascii) :
  (n < 64)%N → b64_digit n :: l1 ≠ "="%char :: l2.
Proof. intros ? [= ?%b64_digit_not_pad]; auto. Qed.

Lemma zero_below : (0 < 256)%N.
Proof. reflexivity. Qed.

Create HintDb sextet.
Local Hint Resolve sextet1_below sextet2_below sextet3_below sextet4_below
  N_ascii_bounded zero_below : sextet.

Ltac digits :=
  repeat match goal with
  | H : b64_digit _ :: _ = b64_digit _ :: _ |- _ =>
      apply sextet_digit_eq in H as [? H]; [|by eauto with sextet..]
  | H : b64_digit _ :: _ = "="%char :: _ |- _ =>
      by (apply sextet_digit_pad in H; [|by eauto with sextet])
  | H : "="%char :: _ = b64_digit _ :: _ |- _ =>
      by (symmetry in H; apply sextet_digit_pad in H; [|by eauto with sextet])
  end.

Lemma block_eq (a b c a' b' c' : ascii) :
  sextet1 (N_of_ascii a) = sextet1 (N_of_ascii a') →
  sextet2 (N_of_ascii a) (N_of_ascii b) = sextet2 (N_of_ascii a') (N_of_ascii b') →
  sextet3 (N_of_ascii b) (N_of_ascii c) = sextet3 (N_of_ascii b') (N_of_ascii c') →
  sextet4 (N_of_ascii c) = sextet4 (N_of_ascii c') →
  a = a' ∧ b = b' ∧ c = c'.
Proof.
  intros H1 H2 H3 H4.
  destruct (sextets_inj _ _ _ _ _ _ (N_ascii_bounded a) (N_ascii_bounded b)
              (N_ascii_bounded c) (N_ascii_bounded a') (N_ascii_bounded b')
              (N_ascii_bounded c') H1 H2 H3 H4) as (?%byte_eq & ?%byte_eq & ?%byte_eq).
  done.
Qed.

Lemma zero_byte : N_of_ascii "000"%char = 0%N.
Proof. reflexivity. Qed.

(** the encoding loses nothing: padded base64 is injective on bytes *)
Lemma base64_inj (l1 l2 : list ascii) : base64 l1 = base64 l2 → l1 = l2.
Proof.
  revert l2. induction l1 as [|a|a b|a b c l1 IH] using list_ind3;
    intros l2; induction l2 as [|a'|a' b'|a' b' c' l2 _] using list_ind3;
    cbn [base64]; intros Heq; try discriminate; digits.
  - done.
  - rewrite <-!zero_byte in *.
    by destruct (block_eq a "000" "000" a' "000" "000") as (-> & _).
  - rewrite <-!zero_byte in *.
    by destruct (block_eq a b "000" a' b' "000") as (-> & -> & _).
  - destruct (block_eq a b c a' b' c') as (-> & -> & ->); [done..|].
    do 3 f_equal. apply IH. congruence.
Qed.

(** the first [4n] digits encode the first [3n] bytes *)
Lemma take_base64 (n : nat) (l : list ascii) :
  take (4 * n) (base64 l) = base64 (take (3 * n) l).
Proof.
  revert n. induction l as [|a|a b|a b c l IH] using list_ind3;
    intros [|n]; try reflexivity;
    replace (4 * S n) with (S (S (S (S (4 * n))))) by lia;
    replace (3 * S n) with (S (S (S (3 * n)))) by lia;
    cbn [base64 take]; rewrite ?take_nil; [done..|].
  by rewrite IH.
Qed.

Lemma string_of_list_ascii_inj (l1 l2 : list ascii) :
  string_of_list_ascii l1 = string_of_list_ascii l2 → l1 = l2.
Proof.
  intros H. by rewrite <-(list_ascii_of_string_of_list_ascii l1), H,
    list_ascii_of_string_of_list_ascii.
Qed.

(** The id keeps the first 24 bytes of the URL and nothing else: two URLs
    get the same id exactly when their UTF-8 encodings agree on the first
    24 bytes. *)
Lemma generateArticleId_eq_iff (url1 url2 : string) :
  generateArticleId url1 = generateArticleId url2
  ↔ take 24 (utf8 url1) = take 24 (utf8 url2).
Proof.
  unfold generateArticleId.
  assert (∀ l, take 32 (base64 l) = base64 (take 24 l)) as Htake.
  { intros l. apply (take_base64 8). }
  rewrite !Htake. split.
  - intros H%string_of_list_ascii_inj. by apply base64_inj.
  - by intros ->.
Qed.

Example generateArticleId_readme :
  generateArticleId "https://example.com/a" = "aHR0cHM6Ly9leGFtcGxlLmNvbS9h".
Proof. vm_compute. reflexivity. Qed.

(** C3.  The derived ids of two distinct URLs do not differ when the URLs
    share their first 24 bytes: two articles of one site get one id. *)
Theorem generateArticleId_collision :
  "https://www.example.com/a" ≠ "https://www.example.com/b"
  ∧ generateArticleId "https://www.example.com/a" = "aHR0cHM6Ly93d3cuZXhhbXBsZS5jb20v"
  ∧ generateArticleId "https://www.example.com/b" = "aHR0cHM6Ly93d3cuZXhhbXBsZS5jb20v".
Proof. split; [done|]. split; vm_compute; reflexivity. Qed.

(** *** Metadata *)

Lemma store_eta (st : t) :
  Store (readArticles st) (favoriteArticles st) (articleMetadata st) = st.
Proof. by destruct st. Qed.

(** C6.  [storeArticleMetadata] returns the id derived from the article's
    URL; when the id has no metadata yet the entry is stored, when it has
    the store is left as it is; so a second call with any article of the
    same URL changes nothing.  Read sets and favorites are never touched. *)
Theorem storeArticleMetadata_first_write_wins (st : t) (a : article) (now : Z) :
  let articleId := generateArticleId (url a) in
  let st' := (storeArticleMetadata st a now).2 in
  (storeArticleMetadata st a now).1 = articleId
  ∧ (articleMetadata st !! articleId = None →
       articleMetadata st' =
         <[articleId := Metadata articleId (url a) (title a) (description a)
                          (content a) (image a) (publishedAt a) (source_ a) now]>
           (articleMetadata st))
  ∧ (is_Some (articleMetadata st !! articleId) → st' = st)
  ∧ (∀ (b : article) (later : Z), url b = url a →
       storeArticleMetadata st' b later = (articleId, st'))
  ∧ readArticles st' = readArticles st
  ∧ favoriteArticles st' = favoriteArticles st.
Proof.
  intros articleId st'. unfold st', storeArticleMetadata. fold articleId.
  simpl. split; [done|].
  destruct (articleMetadata st !! articleId) as [m|] eqn:Hm; simpl.
  - split; [done|]. split; [done|]. split; [|done].
    intros b later ->. fold articleId. by rewrite Hm.
  - split; [done|]. split; [by intros [? ?]|]. split; [|done].
    intros b later ->. fold articleId. simpl. by rewrite lookup_insert_eq.
Qed.

Lemma storeArticleMetadata_consistent (st : t) (a : article) (now : Z) :
  consistent st → consistent (storeArticleMetadata st a now).2.
Proof.
  intros Hc key m. unfold storeArticleMetadata. simpl.
  destruct (articleMetadata st !! _) eqn:Hm; simpl; [apply Hc|].
  rewrite lookup_insert. case_decide as Hk; [|apply Hc].
  by intros [= <-].
Qed.

Lemma new_consistent : consistent new.
Proof. intros key m. unfold new. simpl. by rewrite lookup_empty. Qed.

Lemma consistent_subseteq (st st' : t) :
  articleMetadata st' ⊆ articleMetadata st → consistent st → consistent st'.
Proof.
  intros Hsub Hc key m Hm. apply Hc.
  by apply (lookup_weaken (articleMetadata st')).
Qed.

Lemma removeFavorite_metadata (st : t) (u : userId) (articleId : string) :
  articleMetadata (removeFavorite st u articleId).2 = articleMetadata st.
Proof. unfold removeFavorite. by destruct (favoriteArticles st !! u). Qed.

(** *** Favorites *)

(** C9.  [removeFavorite] returns [true] exactly when the id was a key of
    the user's favorites map; it then removes that key and nothing else.
    When it returns [false] the store is unchanged, and the controller
    answers 404 (200 otherwise). *)
Theorem removeFavorite_reports_presence (st : t) (u : userId) (articleId : string) :
  let removed := (removeFavorite st u articleId).1 in
  let st' := (removeFavorite st u articleId).2 in
  (removed = true ↔
     ∃ favMap, favoriteArticles st !! u = Some favMap
               ∧ is_Some (favMap !! articleId))
  ∧ (removed = true →
       isFavorite st' u articleId = false
       ∧ (∀ u' id', (u', id') ≠ (u, articleId) →
            isFavorite st' u' id' = isFavorite st u' id')
       ∧ (∀ favMap, favoriteArticles st !! u = Some favMap →
            favoriteArticles st' =
              <[u := delete articleId favMap]> (favoriteArticles st))
       ∧ readArticles st' = readArticles st
       ∧ articleMetadata st' = articleMetadata st)
  ∧ (removed = false → st' = st)
  ∧ ArticleController.status
      (ArticleController.removeFavorite st u articleId).1
    = (if removed then 200 else 404)
  ∧ (ArticleController.removeFavorite st u articleId).2 = st'.
Proof.
  intros removed st'. unfold removed, st', ArticleController.removeFavorite.
  unfold removeFavorite.
  destruct (favoriteArticles st !! u) as [favMap|] eqn:Hu; simpl.
  - split.
    { rewrite bool_decide_eq_true. split; [eauto|]. by intros (? & [= <-] & ?). }
    split.
    { intros Hin%bool_decide_eq_true. unfold isFavorite. simpl.
      rewrite lookup_insert_eq, lookup_delete_eq.
      split; [by apply bool_decide_eq_false; intros [? ?]|].
      split; [|split; [|done]].
      - intros u' id' Hne. rewrite lookup_insert. case_decide as Hu'; [|done].
        subst u'. rewrite Hu, lookup_delete_ne; [done|]. congruence.
      - by intros ? [= <-]. }
    split.
    { intros Hnot%bool_decide_eq_false.
      rewrite delete_id by (by apply eq_None_not_Some).
      rewrite insert_id by done. apply store_eta. }
    by case_bool_decide.
  - split; [|done]. split; [done|]. by intros (? & ? & ?).
Qed.

(** *** Read marks *)

Lemma addRead_lookup (st : t) (u : userId) (articleId : string) :
  readArticles (addRead st u articleId) !! u
  = Some ({[articleId]} ∪ default ∅ (readArticles st !! u)).
Proof.
  unfold addRead. simpl. rewrite lookup_insert_eq.
  destruct (readArticles st !! u) as [s|] eqn:Hs; simpl.
  - by rewrite Hs.
  - by rewrite lookup_insert_eq.
Qed.

Lemma length_omap_le {A B} (f : A → option B) (l : list A) :
  length (omap f l) ≤ length l.
Proof. induction l as [|y l IH]; csimpl; [done|]. destruct (f y); simpl; lia. Qed.

Lemma elem_of_map_keys {A} (m : gmap string A) (k : string) :
  k ∈ (map_to_list m).*1 ↔ is_Some (m !! k).
Proof.
  rewrite list_elem_of_fmap. split.
  - intros ([k' a] & -> & H%elem_of_map_to_list). eauto.
  - intros [a Ha]. exists (k, a). split; [done|]. by apply elem_of_map_to_list.
Qed.

Lemma length_omap_lt {A B} (f : A → option B) (l : list A) (x : A) :
  x ∈ l → f x = None → length (omap f l) < length l.
Proof.
  intros Hx Hf. induction Hx as [x l|x y l Hx IH]; csimpl.
  - rewrite Hf. pose proof (length_omap_le f l). lia.
  - specialize (IH Hf). destruct (f y); simpl; lia.
Qed.

(** C10.  Marking as read an id that has no metadata makes [isRead] true
    for it, yet [getReadArticles] lists only metadata filed under other
    read ids, while [totalRead] counts the id: [totalRead] then strictly
    exceeds the length of [getReadArticles]. *)
Theorem markAsReadById_without_metadata
    (st : t) (u : userId) (articleId : string) (now : Z) :
  articleMetadata st !! articleId = None →
  let st' := (markAsReadById st u articleId now).2 in
  isRead st' u articleId = true
  ∧ (∀ m, m ∈ getReadArticles st' u →
       ∃ id', id' ≠ articleId ∧ isRead st' u id' = true
              ∧ articleMetadata st' !! id' = Some m)
  ∧ (consistent st → ∀ m, m ∈ getReadArticles st' u → id m ≠ articleId)
  ∧ length (getReadArticles st' u) < totalRead (getUserStats st' u).
Proof.
  intros Hnone st'. unfold st', markAsReadById. cbn [snd].
  unfold isRead, getReadArticles, getUserStats. cbn [totalRead].
  rewrite !addRead_lookup.
  change (articleMetadata (addRead st u articleId)) with (articleMetadata st).
  set (s := {[articleId]} ∪ default ∅ (readArticles st !! u)).
  assert (∀ m, m ∈ omap (λ id, articleMetadata st !! id) (elements s) →
            ∃ id', id' ≠ articleId ∧ id' ∈ s
                   ∧ articleMetadata st !! id' = Some m) as Hlisted.
  { intros m (id' & Hin%elem_of_elements & Hm)%list_elem_of_omap.
    exists id'. split; [congruence|done]. }
  split; [apply bool_decide_eq_true; set_solver|].
  split; [|split].
  - intros m (id' & ? & ? & ?)%Hlisted. exists id'.
    by rewrite bool_decide_eq_true.
  - intros Hc m (id' & Hne & _ & Hm)%Hlisted. by rewrite (Hc _ _ Hm).
  - apply (length_omap_lt _ _ articleId); [|done].
    apply elem_of_elements. set_solver.
Qed.

Lemma markAsReadById_without_metadata_witness :
  let st' := (markAsReadById new 1 "abc" 0).2 in
  isRead st' 1 "abc" = true
  ∧ length (getReadArticles st' 1) < totalRead (getUserStats st' 1).
Proof.
  destruct (markAsReadById_without_metadata new 1 "abc" 0 eq_refl)
    as (Hread & _ & _ & Hlen).
  split; [exact Hread|exact Hlen].
Defined.

(** *** The metadata sweep *)

Lemma unmark_spec (l : list string) (x : string) :
  NoDup l → NoDup (unmark l x) ∧ ∀ y, y ∈ unmark l x ↔ y ∈ l ∧ y ≠ x.
Proof.
  unfold unmark. induction l as [|z l IH]; intros Hnd; simpl.
  { split; [done|]. intros y. split; [by intros ?%elem_of_nil|by intros [?%elem_of_nil _]]. }
  apply NoDup_cons in Hnd as [Hz Hnd]. specialize (IH Hnd) as [IHnd IHin].
  case_decide as Hzx; simpl.
  - subst z. split; [done|]. intros y. rewrite elem_of_cons.
    split; [|by intros [[?|?] ?]]. intros Hy. split; [by right|]. by intros ->.
  - destruct (indexOf l x) as [i|]; simpl in *.
    + split.
      * apply NoDup_cons. split; [|done]. rewrite IHin. tauto.
      * intros y. rewrite !elem_of_cons, IHin.
        split; [intros [->|[? ?]]; auto|]. intros [[->|?] ?]; auto.
    + split; [by apply NoDup_cons|]. intros y.
      rewrite !elem_of_cons. rewrite (IHin y).
      split; [intros [->|[? ?]]; auto|]. intros [[->|?] ?]; auto.
Qed.

Lemma foldl_unmark_spec (keys l : list string) :
  NoDup l →
  NoDup (foldl unmark l keys)
  ∧ ∀ y, y ∈ foldl unmark l keys ↔ y ∈ l ∧ y ∉ keys.
Proof.
  revert l. induction keys as [|x keys IH]; intros l Hnd; simpl.
  { split; [done|]. intros y. rewrite elem_of_nil. tauto. }
  destruct (unmark_spec l x Hnd) as [Hnd' Hin'].
  destruct (IH _ Hnd') as [Hnd'' Hin'']. split; [done|].
  intros y. rewrite Hin'', Hin', not_elem_of_cons. tauto.
Qed.

Lemma foldl_favorites_spec (maps : list (gmap string favorite)) (l : list string) :
  NoDup l →
  let l' := foldl (λ td favMap, foldl unmark td (map_to_list favMap).*1) l maps in
  NoDup l'
  ∧ ∀ y, y ∈ l' ↔ y ∈ l ∧ ∀ favMap, favMap ∈ maps → favMap !! y = None.
Proof.
  revert l. induction maps as [|fm maps IH]; intros l Hnd; simpl.
  { split; [done|]. intros y. split; [|tauto].
    intros ?. split; [done|]. by intros ? ?%elem_of_nil. }
  destruct (foldl_unmark_spec (map_to_list fm).*1 l Hnd) as [Hnd' Hin'].
  destruct (IH _ Hnd') as [Hnd'' Hin'']. split; [done|].
  intros y. rewrite Hin'', Hin'.
  assert (y ∉ (map_to_list fm).*1 ↔ fm !! y = None) as ->.
  { by rewrite elem_of_map_keys, eq_None_not_Some. }
  split.
  - intros [[? ?] Hall]. split; [done|]. intros ? [->|?]%elem_of_cons; auto.
  - intros [? Hall]. split; [split; [done|]|].
    + apply Hall. left.
    + intros favMap ?. apply Hall. by right.
Qed.

Lemma foldl_delete_lookup {A} (l : list string) (m : gmap string A) (k : string) :
  foldl (λ md id, delete id md) m l !! k
  = if decide (k ∈ l) then None else m !! k.
Proof.
  revert m. induction l as [|x l IH]; intros m; simpl.
  { by destruct (decide (k ∈ [])) as [?%elem_of_nil|]. }
  rewrite IH. destruct (decide (k ∈ l)) as [Hin|Hnin].
  - destruct (decide (k ∈ x :: l)) as [|Hn]; [done|]. destruct Hn. by right.
  - destruct (decide (k = x)) as [->|Hne].
    + destruct (decide (x ∈ x :: l)) as [|Hn]; [|destruct Hn; left].
      apply lookup_delete_eq.
    + destruct (decide (k ∈ x :: l)) as [[?|?]%elem_of_cons|]; [done..|].
      by apply lookup_delete_ne.
Qed.

Lemma foldl_delete_size {A} (l : list string) (m : gmap string A) :
  NoDup l → (∀ k, k ∈ l → is_Some (m !! k)) →
  length l + size (foldl (λ md id, delete id md) m l) = size m.
Proof.
  revert m. induction l as [|x l IH]; intros m Hnd Hin; simpl; [done|].
  apply NoDup_cons in Hnd as [Hx Hnd].
  destruct (Hin x) as [a Ha]; [left|].
  specialize (IH (delete x m) Hnd).
  rewrite (map_size_delete_Some x m (mk_is_Some _ _ Ha)) in IH.
  assert (size m ≠ 0).
  { intros ?%map_size_empty_inv. subst m. by rewrite lookup_empty in Ha. }
  assert (∀ k, k ∈ l → is_Some (delete x m !! k)) as Hin'.
  { intros k Hk. rewrite lookup_delete_ne by (by intros ->). apply Hin. by right. }
  specialize (IH Hin'). lia.
Qed.

Lemma stale_ids_spec (md : gmap string metadata) (maxAge now : Z) :
  let l := omap (λ '(id, a), if decide (now - cachedAt a > maxAge)%Z
                             then Some id else None) (map_to_list md) in
  NoDup l ∧ ∀ y, y ∈ l ↔ ∃ a, md !! y = Some a ∧ stale maxAge now a.
Proof.
  intros l. split.
  - unfold l. pose proof (NoDup_fst_map_to_list md) as Hnd.
    induction (map_to_list md) as [|[k a] rest IH]; csimpl; [constructor|].
    csimpl in Hnd. apply NoDup_cons in Hnd as [Hk Hnd].
    case_decide; [|by apply IH]. apply NoDup_cons. split; [|by apply IH].
    intros ([k' a'] & Hin & Hsome)%list_elem_of_omap. case_decide; [|done].
    injection Hsome as ->. apply Hk. apply list_elem_of_fmap. by exists (k, a').
  - intros y. unfold l. rewrite list_elem_of_omap. split.
    + intros ([k a] & Hin%elem_of_map_to_list & Hsome).
      case_decide; [|done]. injection Hsome as ->. by exists a.
    + intros (a & Ha & Hstale). exists (y, a).
      split; [by apply elem_of_map_to_list|]. by rewrite decide_True.
Qed.

Lemma unfavorited_iff (st : t) (y : string) :
  (∀ favMap, favMap ∈ (map_to_list (favoriteArticles st)).*2 → favMap !! y = None)
  ↔ ¬ favorited st y.
Proof.
  unfold favorited. split.
  - intros Hall (u & favMap & Hu & Hy). rewrite (Hall favMap) in Hy.
    + by destruct Hy.
    + apply list_elem_of_fmap. exists (u, favMap).
      split; [done|]. by apply elem_of_map_to_list.
  - intros Hnot favMap ([u fm] & -> & Hu%elem_of_map_to_list)%list_elem_of_fmap.
    apply eq_None_not_Some. intros Hy. apply Hnot. by exists u, fm.
Qed.

Lemma clearOldMetadata_subseteq (st : t) (maxAge_arg : option Z) (now : Z) :
  articleMetadata (clearOldMetadata st maxAge_arg now).2 ⊆ articleMetadata st.
Proof.
  unfold clearOldMetadata. cbn [snd articleMetadata].
  apply map_subseteq_spec. intros key a. rewrite foldl_delete_lookup.
  by case_decide.
Qed.

(** every store the singleton goes through files each metadata entry
    under its own id *)
Lemma reachable_consistent (st : t) : reachable st → consistent st.
Proof.
  induction 1 as [|st a now _ IH|st u a now now' _ IH|st u k now _ IH
                  |st u a now now' now'' _ IH|st u k now _ IH|st u k _ IH
                  |st m now _ IH].
  - apply new_consistent.
  - by apply storeArticleMetadata_consistent.
  - apply (storeArticleMetadata_consistent _ a now) in IH.
    unfold markAsRead. by destruct (storeArticleMetadata st a now).
  - done.
  - apply (storeArticleMetadata_consistent _ a now) in IH.
    unfold markAsFavorite. by destruct (storeArticleMetadata st a now).
  - done.
  - intros key md. rewrite removeFavorite_metadata. apply IH.
  - apply (consistent_subseteq st); [apply clearOldMetadata_subseteq|done].
Qed.

(** C1.  For every [maxAge], the sweep deletes exactly the metadata
    entries whose age from [cachedAt] exceeds [maxAge] and whose id is a
    key of no user's favorites map; an id that some user has in favorites
    keeps its metadata, read marks protect nothing (they do not occur in
    the condition), read sets and favorites are left as they are, and the
    returned count is the number of entries deleted. *)
Theorem clearOldMetadata_sweeps_unfavorited
    (st : t) (maxAge_arg : option Z) (now : Z) :
  let maxAge := default sevenDays maxAge_arg in
  let count := (clearOldMetadata st maxAge_arg now).1 in
  let st' := (clearOldMetadata st maxAge_arg now).2 in
  articleMetadata st' ⊆ articleMetadata st
  ∧ (∀ id a, articleMetadata st !! id = Some a →
       (articleMetadata st' !! id = None
        ↔ stale maxAge now a ∧ ¬ favorited st id))
  ∧ (∀ id, favorited st id →
       articleMetadata st' !! id = articleMetadata st !! id)
  ∧ (∀ u id a, isRead st u id = true →
       articleMetadata st !! id = Some a → stale maxAge now a →
       ¬ favorited st id → articleMetadata st' !! id = None)
  ∧ readArticles st' = readArticles st
  ∧ favoriteArticles st' = favoriteArticles st
  ∧ count + size (articleMetadata st') = size (articleMetadata st).
Proof.
  intros maxAge count st'. unfold count, st', clearOldMetadata.
  fold maxAge. cbn [fst snd articleMetadata readArticles favoriteArticles].
  destruct (stale_ids_spec (articleMetadata st) maxAge now) as [Hnd0 Hin0].
  destruct (foldl_favorites_spec (map_to_list (favoriteArticles st)).*2 _ Hnd0)
    as [Hnd Hin]. cbn zeta in Hnd, Hin.
  set (toDelete := foldl _ _ (map_to_list (favoriteArticles st)).*2) in *.
  assert (∀ y, y ∈ toDelete ↔
            (∃ a, articleMetadata st !! y = Some a ∧ stale maxAge now a)
            ∧ ¬ favorited st y) as Hdel.
  { intros y. by rewrite Hin, Hin0, unfavorited_iff. }
  split; [|split; [|split; [|split; [|split; [done|split; [done|]]]]]].
  - apply map_subseteq_spec. intros id a. rewrite foldl_delete_lookup.
    by case_decide.
  - intros id a Ha. rewrite foldl_delete_lookup, Ha.
    case_decide as Hid.
    + apply Hdel in Hid as [(a' & Ha' & Hstale) Hfav].
      split; [|done]. intros _. by simplify_eq.
    + split; [done|]. intros [Hstale Hfav]. destruct Hid. apply Hdel. eauto.
  - intros id Hfav. rewrite foldl_delete_lookup. case_decide as Hid; [|done].
    by apply Hdel in Hid as [_ []].
  - intros u id a _ Ha Hstale Hfav. rewrite foldl_delete_lookup.
    rewrite decide_True; [done|]. apply Hdel. eauto.
  - apply foldl_delete_size; [done|].
    intros k (( a & Ha & _) & _)%Hdel. eauto.
Qed.

(** a read mark does not protect: the stale entry of an article that user 1
    has read, and nobody has in favorites, is swept *)
Example clearOldMetadata_ignores_read_marks :
  let a := MkArticle "https://example.com/a" "t" "d" "c" "i" "p" (Source "n" "u") in
  let st := (markAsRead new 1 a 0 0).2 in
  let articleId := generateArticleId "https://example.com/a" in
  isRead st 1 articleId = true
  ∧ (clearOldMetadata st (Some 1000%Z) 5000).1 = 1
  ∧ articleMetadata (clearOldMetadata st (Some 1000%Z) 5000).2 !! articleId = None
  ∧ isRead (clearOldMetadata st (Some 1000%Z) 5000).2 1 articleId = true.
Proof. vm_compute. done. Qed.

(** a favorite protects: the same stale entry stays when user 2 has the
    article in favorites *)
Example clearOldMetadata_keeps_favorites :
  let a := MkArticle "https://example.com/a" "t" "d" "c" "i" "p" (Source "n" "u") in
  let st := (markAsFavorite (markAsRead new 1 a 0 0).2 2 a 1 1 1).2 in
  let articleId := generateArticleId "https://example.com/a" in
  (clearOldMetadata st (Some 1000%Z) 5000).1 = 0
  ∧ is_Some (articleMetadata (clearOldMetadata st (Some 1000%Z) 5000).2 !! articleId).
Proof. vm_compute. split; [done|]. by eexists. Qed.

End ArticleProps.


Module NewsServiceProps.
Import Article NewsService.

Implicit Types (l : list article) (a : article) (seen : gset string).

Lemma foldl_collect all seen l :
  foldl collect (all, seen) l
  = (all ++ dedupFrom seen l, list_to_set (url <$> l) ∪ seen).
Proof.
  revert all seen. induction l as [|a l IH]; intros all seen; simpl.
  { rewrite app_nil_r. f_equal. set_solver. }
  case_decide as Hin; rewrite IH.
  - f_equal. set_solver.
  - rewrite <-app_assoc. f_equal. set_solver.
Qed.

Lemma dedupFrom_app seen l1 l2 :
  dedupFrom seen (l1 ++ l2)
  = dedupFrom seen l1 ++ dedupFrom (list_to_set (url <$> l1) ∪ seen) l2.
Proof.
  revert seen. induction l1 as [|a l1 IH]; intros seen; simpl.
  { f_equal. set_solver. }
  assert (∀ X Y : gset string, X = Y → dedupFrom X l2 = dedupFrom Y l2) as Hset
    by (by intros ?? ->).
  case_decide as Hin; rewrite IH; simpl; [|f_equal]; f_equal; apply Hset;
    set_solver.
Qed.

Lemma foldl_collectResult (results : list searchResult) all seen :
  (foldl collectResult (all, seen) results).1
  = all ++ dedupFrom seen (concat (resultArticles <$> results)).
Proof.
  revert all seen. induction results as [|r results IH]; intros all seen; simpl.
  { by rewrite app_nil_r. }
  unfold collectResult at 2, resultArticles at 1.
  destruct (articles r) as [l|]; simpl; [|apply IH].
  by rewrite foldl_collect, IH, dedupFrom_app, app_assoc.
Qed.

Lemma dedupFrom_filter seen l :
  dedupFrom seen l = filter (λ a, url a ∉ seen) (firstOccurrences l).
Proof.
  revert seen. induction l as [|a l IH]; intros seen; simpl; [done|].
  rewrite filter_cons. rewrite list_filter_filter.
  case_decide as Hin.
  - rewrite decide_False by tauto. rewrite IH. apply list_filter_iff.
    intros b. split; [|tauto]. intros Hb. split; [done|]. congruence.
  - rewrite decide_True by done. f_equal. rewrite IH. apply list_filter_iff.
    intros b. rewrite not_elem_of_union, not_elem_of_singleton. tauto.
Qed.

Lemma filter_keeps_all {A} (Q : A → Prop) `{!∀ x, Decision (Q x)} (xs : list A) :
  (∀ x, Q x) → filter Q xs = xs.
Proof.
  intros HQ. induction xs as [|x xs IH]; [done|].
  by rewrite filter_cons_True, IH.
Qed.

Lemma dedupFrom_empty l : dedupFrom ∅ l = firstOccurrences l.
Proof.
  rewrite dedupFrom_filter. apply filter_keeps_all. intros a. set_solver.
Qed.

(** what [getPersonalizedNews] computes, for any preference list *)
Lemma getPersonalizedNews_value (settle : nat → string → apiError + searchResult)
    (prefs : list string) :
  let merged := concat (imap (λ i p, contribution (settle i p)) prefs) in
  let limited := take max (firstOccurrences merged) in
  getPersonalizedNews settle (Some prefs)
  = inr (SearchResult true (Some (length limited)) (Some limited) false).
Proof.
  intros merged limited. unfold getPersonalizedNews.
  destruct prefs as [|p prefs]; [done|].
  set (prefs' := p :: prefs) in *.
  pose proof (foldl_collectResult (imap (caught settle) prefs') [] ∅) as Hfold.
  destruct (foldl collectResult _ _) as [allArticles seenUrls].
  cbn [fst] in Hfold. rewrite app_nil_l in Hfold.
  subst allArticles. rewrite dedupFrom_empty, fmap_imap.
  assert (imap (λ n, resultArticles ∘ caught settle n) prefs'
          = imap (λ i p, contribution (settle i p)) prefs') as ->; [|done].
  apply imap_ext. intros i x _. unfold caught, contribution, resultArticles.
  simpl. by destruct (settle i x).
Qed.

(** *** The merge keeps first occurrences *)

Lemma firstOccurrences_sublist l : firstOccurrences l `sublist_of` l.
Proof.
  induction l as [|a l IH]; simpl; [done|].
  apply sublist_skip. etrans; [apply sublist_filter|done].
Qed.

Lemma firstOccurrences_NoDup l : NoDup (url <$> firstOccurrences l).
Proof.
  induction l as [|a l IH]; simpl; [constructor|].
  apply NoDup_cons. split.
  - intros (b & Hurl & [Hne _]%list_elem_of_filter)%list_elem_of_fmap. congruence.
  - apply (sublist_NoDup _ _ IH), fmap_sublist, sublist_filter.
Qed.

Lemma firstOccurrences_first l1 a l2 :
  url a ∉ url <$> l1 → a ∈ firstOccurrences (l1 ++ a :: l2).
Proof.
  induction l1 as [|b l1 IH]; simpl; [left|].
  rewrite not_elem_of_cons. intros [Hne Hnin]. right.
  apply list_elem_of_filter. split; [congruence|auto].
Qed.

Lemma firstOccurrences_urls l a :
  a ∈ l → ∃ b, b ∈ firstOccurrences l ∧ url b = url a.
Proof.
  induction l as [|c l IH]; [by intros ?%elem_of_nil|].
  intros [->|Hin]%elem_of_cons; simpl.
  - exists c. split; [left|done].
  - destruct (decide (url a = url c)) as [Heq|Hne].
    + exists c. split; [left|done].
    + destruct (IH Hin) as (b & Hb & Hurl). exists b. split; [|done].
      right. apply list_elem_of_filter. split; [congruence|done].
Qed.

Lemma firstOccurrences_app l1 l2 :
  firstOccurrences (l1 ++ l2)
  = firstOccurrences l1
    ++ filter (λ b, url b ∉ url <$> l1) (firstOccurrences l2).
Proof.
  rewrite <-(dedupFrom_empty (l1 ++ l2)), dedupFrom_app, (dedupFrom_empty l1).
  rewrite dedupFrom_filter. f_equal. apply list_filter_iff. intros b.
  set_solver.
Qed.

Lemma count_url_le l (u : string) :
  NoDup (url <$> l) → length (filter (λ b, url b = u) l) ≤ 1.
Proof.
  induction l as [|c l IH]; [intros _; simpl; lia|].
  csimpl. intros [Hc Hnd]%NoDup_cons. rewrite filter_cons.
  case_decide as Hcu; [|auto].
  destruct (filter (λ b, url b = u) l) as [|x xs] eqn:Hf; [done|].
  assert (x ∈ filter (λ b, url b = u) l) as [Hx Hin]%list_elem_of_filter
    by (rewrite Hf; left).
  destruct Hc. apply list_elem_of_fmap. exists x. split; [congruence|done].
Qed.

Lemma count_url_ge l (u : string) b :
  b ∈ l → url b = u → 1 ≤ length (filter (λ b, url b = u) l).
Proof.
  intros Hin Hu.
  assert (b ∈ filter (λ b, url b = u) l) as Hb by (by apply list_elem_of_filter).
  destruct (filter _ l); [by apply elem_of_nil in Hb|simpl; lia].
Qed.

Lemma take_keeps_position {A} (xs ys : list A) (x : A) (n : nat) :
  length xs < n → x ∈ take n (xs ++ x :: ys).
Proof.
  intros Hlen. apply elem_of_take. exists (length xs).
  split; [apply list_lookup_middle; done|done].
Qed.

(** an article of the cut feed is the first of its URL and has fewer
    than [n] distinct URLs before it *)
Lemma firstOccurrences_take_inv l a (n : nat) :
  a ∈ take n (firstOccurrences l) →
  ∃ l1 l2, l = l1 ++ a :: l2 ∧ (url a ∉ url <$> l1)
           ∧ length (firstOccurrences l1) < n.
Proof.
  induction l as [|x l IH] using rev_ind.
  { cbn [firstOccurrences]. rewrite take_nil. by intros ?%elem_of_nil. }
  rewrite firstOccurrences_app, take_app.
  intros [Hin|Hin]%elem_of_app.
  - destruct (IH Hin) as (l1 & l2 & -> & Hfirst & Hlen).
    exists l1, (l2 ++ [x]). by rewrite <-app_assoc.
  - assert (n - length (firstOccurrences l) ≠ 0) as Hpos.
    { intros Hz. rewrite Hz in Hin. by apply elem_of_nil in Hin. }
    apply elem_of_take in Hin as (i & Hi & _).
    apply list_elem_of_lookup_2, list_elem_of_filter in Hi as [Hnew Hi].
    cbn [firstOccurrences filter] in Hi.
    apply list_elem_of_singleton in Hi as ->.
    exists l, []. split; [done|]. split; [done|]. lia.
Qed.

(** C4, as the code has it.  For a non-empty preference list the
    personalized feed is the concatenation of the per-preference article
    lists, in preference order and with each list's order kept, where of
    the articles with one URL only the first stays, cut to the first 10:
    an article is in the feed exactly when it is the first of its URL and
    fewer than 10 distinct URLs come before it.  So the feed holds a URL
    at most once, and exactly once only when fewer than 10 distinct URLs
    precede its first article.  With preferences [[p; p]] whose two
    searches both return an article of some URL, the merged list
    [allArticles] holds exactly one article of that URL; the returned
    feed, its first 10 entries, never holds two, and holds exactly one
    when the first search returned no more than the 10 articles it asked
    the provider for. *)
Theorem getPersonalizedNews_merges
    (settle : nat → string → apiError + searchResult) (prefs : list string) :
  prefs ≠ [] →
  let merged := concat (imap (λ i p, contribution (settle i p)) prefs) in
  ∃ result arts,
    getPersonalizedNews settle (Some prefs) = inr result
    ∧ success result = true
    ∧ articles result = Some arts
    ∧ totalArticles result = Some (length arts)
    ∧ arts = take 10 (firstOccurrences merged)
    ∧ arts `sublist_of` merged
    ∧ NoDup (url <$> arts)
    ∧ length arts ≤ 10
    ∧ (∀ l1 a l2, merged = l1 ++ a :: l2 → url a ∉ url <$> l1 →
         length (firstOccurrences l1) < 10 → a ∈ arts)
    ∧ (∀ a, a ∈ arts →
         ∃ l1 l2, merged = l1 ++ a :: l2 ∧ (url a ∉ url <$> l1)
                  ∧ length (firstOccurrences l1) < 10)
    ∧ (∀ u, length (filter (λ b, url b = u) arts) ≤ 1
            ∧ (length (filter (λ b, url b = u) arts) = 1
               ↔ ∃ l1 a l2, merged = l1 ++ a :: l2 ∧ url a = u
                            ∧ (u ∉ url <$> l1)
                            ∧ length (firstOccurrences l1) < 10))
    ∧ (∀ p a0 a1, prefs = [p; p] →
         a0 ∈ contribution (settle 0 p) → a1 ∈ contribution (settle 1 p) →
         url a0 = url a1 →
         length (filter (λ b, url b = url a0) (firstOccurrences merged)) = 1
         ∧ length (filter (λ b, url b = url a0) arts) ≤ 1
         ∧ (length (contribution (settle 0 p)) ≤ 10 →
              length (filter (λ b, url b = url a0) arts) = 1)).
Proof.
  intros _ merged. eexists _, (take 10 (firstOccurrences merged)).
  split; [apply getPersonalizedNews_value|]. cbn [success articles totalArticles].
  assert (NoDup (url <$> take 10 (firstOccurrences merged))) as Hnd.
  { apply (sublist_NoDup _ _ (firstOccurrences_NoDup merged)).
    apply fmap_sublist, sublist_take. }
  split; [done|]. split; [done|]. split; [done|]. split; [done|].
  split; [etrans; [apply sublist_take|apply firstOccurrences_sublist]|].
  split; [done|]. split; [rewrite length_take; lia|].
  assert (∀ l1 a l2, merged = l1 ++ a :: l2 → url a ∉ url <$> l1 →
            length (firstOccurrences l1) < 10 →
            a ∈ take 10 (firstOccurrences merged)) as Hkept.
  { intros l1 a l2 -> Hfirst Hlen. rewrite firstOccurrences_app. simpl.
    rewrite filter_cons_True by done. by apply take_keeps_position. }
  split; [done|]. split; [intros a; apply firstOccurrences_take_inv|]. split.
  - intros u. split; [by apply count_url_le|]. split.
    + intros Hone.
      destruct (filter (λ b, url b = u) (take 10 (firstOccurrences merged)))
        as [|b bs] eqn:Hf; [done|].
      assert (b ∈ filter (λ b, url b = u) (take 10 (firstOccurrences merged)))
        as [Hbu Hb]%list_elem_of_filter by (rewrite Hf; left).
      destruct (firstOccurrences_take_inv _ _ _ Hb) as (l1 & l2 & Hm & ? & ?).
      exists l1, b, l2. by rewrite <-Hbu.
    + intros (l1 & a & l2 & Hm & Hau & Hfirst & Hlen).
      apply Nat.le_antisymm; [by apply count_url_le|].
      apply (count_url_ge _ _ a); [|done].
      apply (Hkept l1 a l2); [done|by rewrite Hau|done].
  - intros p a0 a1 -> Ha0 Ha1 Hurl.
    destruct (firstOccurrences_urls _ _ Ha0) as (b & Hb & Hbu).
    assert (firstOccurrences merged
            = firstOccurrences (contribution (settle 0 p))
              ++ filter (λ c, url c ∉ url <$> contribution (settle 0 p))
                   (firstOccurrences (contribution (settle 1 p) ++ []))) as Hm.
    { unfold merged. simpl. apply firstOccurrences_app. }
    split; [|split; [by apply count_url_le|]].
    { apply Nat.le_antisymm; [apply count_url_le, firstOccurrences_NoDup|].
      apply (count_url_ge _ _ b); [|done]. rewrite Hm, elem_of_app. by left. }
    intros Hmax. apply Nat.le_antisymm; [by apply count_url_le|].
    apply (count_url_ge _ _ b); [|done]. rewrite Hm.
    rewrite take_app_ge.
    + apply elem_of_app. by left.
    + pose proof (sublist_length _ _ (firstOccurrences_sublist
                                        (contribution (settle 0 p)))). lia.
Qed.

(** C4, as stated, fails when the first search returns more than 10
    articles: with preferences [[a; a]], a first search returning 11
    articles and both searches returning the eleventh, the feed of 10
    does not hold the shared article at all, for the merged list is cut
    only after the merge. *)
Lemma getPersonalizedNews_cuts_shared_article :
  let shared := sampleArticle "https://x.example/11" in
  let first :=
    sampleArticle
      <$> ["https://x.example/1"; "https://x.example/2"; "https://x.example/3";
           "https://x.example/4"; "https://x.example/5"; "https://x.example/6";
           "https://x.example/7"; "https://x.example/8"; "https://x.example/9";
           "https://x.example/10"; "https://x.example/11"] in
  let settle (i : nat) (_ : string) : apiError + searchResult :=
    inr (SearchResult true (Some (if i is 0 then 11 else 1))
           (Some (if i is 0 then first else [shared])) false) in
  shared ∈ contribution (settle 0 "a")
  ∧ shared ∈ contribution (settle 1 "a")
  ∧ ∃ arts,
      getPersonalizedNews settle (Some ["a"; "a"])
      = inr (SearchResult true (Some 10) (Some arts) false)
      ∧ arts = take 10 first
      ∧ filter (λ b, url b = url shared) arts = [].
Proof.
  intros shared first settle. split; [|split].
  - cbn. do 10 right. left.
  - cbn. left.
  - eexists. split; [by rewrite getPersonalizedNews_value|].
    split; [|vm_compute; reflexivity]. vm_compute. reflexivity.
Qed.

Lemma getPersonalizedNews_merges_witness :
  articles
    <$> (match getPersonalizedNews
             (λ _ _, inr (SearchResult true (Some 1)
                            (Some [sampleArticle "https://x.example/1"]) false))
             (Some ["a"; "a"]) with
         | inr result => Some result
         | inl _ => None
         end)
  = Some (Some [sampleArticle "https://x.example/1"]).
Proof.
  destruct (getPersonalizedNews_merges
              (λ _ _, inr (SearchResult true (Some 1)
                             (Some [sampleArticle "https://x.example/1"]) false))
              ["a"; "a"]) as (result & arts & Hres & _ & Harts & _ & Heq & _).
  - discriminate.
  - rewrite Hres. simpl. rewrite Harts, Heq. vm_compute. reflexivity.
Defined.

Lemma concat_contribution (os : list (apiError + searchResult)) :
  concat (contribution <$> os) = concat (omap succeeded os).
Proof.
  induction os as [|[err|result] os IH]; csimpl; [done..|].
  by rewrite IH.
Qed.

(** C5.  Whatever searches fail, the personalized request succeeds; its
    articles are the merge of the lists of the searches that succeeded,
    the failed ones contributing nothing, exactly as if each failed
    search had returned no article.  With preferences [[a; b]] and a
    failing search for [b], the feed holds [a]'s articles only. *)
Theorem getPersonalizedNews_isolates_failures
    (settle : nat → string → apiError + searchResult) (prefs : list string) :
  ∃ result,
    getPersonalizedNews settle (Some prefs) = inr result
    ∧ success result = true
    ∧ articles result
      = Some (take 10 (firstOccurrences
                         (concat (omap succeeded (imap settle prefs)))))
    ∧ getPersonalizedNews (λ i p, emptied (settle i p)) (Some prefs)
      = inr result
    ∧ (∀ (topic_a topic_b : string) ra err, prefs = [topic_a; topic_b] →
         settle 0 topic_a = inr ra → settle 1 topic_b = inl err →
         articles result
         = Some (take 10 (firstOccurrences (resultArticles ra)))).
Proof.
  eexists. split; [apply getPersonalizedNews_value|].
  cbn [success articles].
  assert (imap (λ i p, contribution (settle i p)) prefs
          = contribution <$> imap settle prefs) as Hc by (by rewrite fmap_imap).
  split; [done|]. split; [by rewrite Hc, concat_contribution|]. split.
  - rewrite getPersonalizedNews_value.
    assert (imap (λ i p, contribution (emptied (settle i p))) prefs
            = imap (λ i p, contribution (settle i p)) prefs) as ->; [|done].
    apply imap_ext. intros i p _. by destruct (settle i p).
  - intros topic_a topic_b ra err -> Ha Hb. simpl. unfold contribution at 1 2.
    rewrite Ha, Hb. simpl. by rewrite app_nil_r.
Qed.

(** a search rejects exactly when the cache misses and the provider call
    fails *)
Lemma searchNews_rejects_iff (svc : t) (c : cache) (query : string) (now : Z)
    (reply : axiosFailure + apiData) (now' stamp : Z) :
  (∃ err, (searchNews svc c query now reply now' stamp).1 = inl err)
  ↔ (CacheService.get c
       (CacheService.generateKey (λ v : string, v) "search" [("query", query)])
       now).1 = None
    ∧ ∃ error, reply = inl error.
Proof.
  unfold searchNews. destruct (CacheService.get c _ now) as [[hit|] c1]; simpl.
  - split; [by intros [? ?]|by intros [? ?]].
  - destruct reply as [error|data]; simpl.
    + split; [eauto|]. intros _. eauto.
    + split; [by intros [? ?]|]. by intros [_ [? ?]].
Qed.

(** topic "b" is unreachable at the provider: the request still succeeds
    with the articles of topic "a" *)
Example personalize_partial_failure :
  let x1 := sampleArticle "https://x.example/1" in
  let x2 := sampleArticle "https://x.example/2" in
  let reply (i : nat) (p : string) : axiosFailure + apiData :=
    if decide (p = "a") then inr (ApiData (Some 2) (Some [x1; x2]))
    else inl NoResponse in
  personalize (new (Some "key")) CacheService.new 0 reply (Some ["a"; "b"])
  = inr (SearchResult true (Some 2) (Some [x1; x2]) false).
Proof. vm_compute. reflexivity. Qed.

(** both searches of [["a"; "a"]] return the same article: it is listed
    once *)
Example personalize_duplicate_topic :
  let x1 := sampleArticle "https://x.example/1" in
  let reply (i : nat) (p : string) : axiosFailure + apiData :=
    inr (ApiData (Some 1) (Some [x1])) in
  personalize (new (Some "key")) CacheService.new 0 reply (Some ["a"; "a"])
  = inr (SearchResult true (Some 1) (Some [x1]) false).
Proof. vm_compute. reflexivity. Qed.

End NewsServiceProps.


Module BackgroundJobServiceProps.
Import BackgroundJobService.

Lemma live_app (rt1 rt2 : runtime) :
  live (rt1 ++ rt2)
  = live rt1 ++ (prod_map (λ h, length rt1 + h) (λ x, x) <$> live rt2).
Proof.
  unfold live. rewrite imap_app, omap_app. f_equal.
  generalize (length rt1). intros n. clear rt1.
  revert n. induction rt2 as [|slot rt2 IH] using rev_ind; intros n; [done|].
  rewrite !imap_app, !omap_app, fmap_app, IH. f_equal.
  csimpl. destruct slot as [x|]; csimpl; [|done].
  by rewrite Nat.add_0_r.
Qed.

Lemma live_installed (rt1 : runtime) (d1 d2 d3 : Z) :
  live (rt1 ++ [Some (UpdatePopularNewsCache, d1); Some (CleanupCache, d2);
                Some (CleanupOldArticles, d3)])
  = live rt1 ++ installed (length rt1) d1 d2 d3.
Proof.
  rewrite live_app. f_equal. unfold live, installed. csimpl.
  by rewrite Nat.add_0_r, !Nat.add_succ_r, !Nat.add_0_r.
Qed.

Lemma live_cancelled (rt1 : runtime) : live (rt1 ++ [None; None; None]) = live rt1.
Proof. rewrite live_app. csimpl. by rewrite app_nil_r. Qed.

Lemma start_stopped (s : t) (rt : runtime) (cfg : config) :
  isRunning s = false →
  ∃ d1 d2 d3,
    start s rt cfg
    = (Jobs (Intervals (Some (length rt)) (Some (S (length rt)))
               (Some (S (S (length rt))))) true,
       rt ++ [Some (UpdatePopularNewsCache, d1); Some (CleanupCache, d2);
              Some (CleanupOldArticles, d3)]).
Proof.
  intros Hs. unfold start, setInterval. rewrite Hs. do 3 eexists.
  rewrite !length_app. simpl. rewrite <-!app_assoc. simpl.
  by rewrite !Nat.add_1_r.
Qed.

Lemma stop_installed (rt1 : runtime) (d1 d2 d3 : Z) :
  let h := length rt1 in
  stop (Jobs (Intervals (Some h) (Some (S h)) (Some (S (S h)))) true)
       (rt1 ++ [Some (UpdatePopularNewsCache, d1); Some (CleanupCache, d2);
                Some (CleanupOldArticles, d3)])
  = (Jobs (Intervals None None None) false, rt1 ++ [None; None; None]).
Proof.
  intros h. unfold stop.
  cbn [isRunning negb intervals_ cacheUpdate cacheCleanup articleCleanup cancel].
  unfold clearInterval. rewrite !insert_app_r_alt by (unfold h; lia).
  replace (h - length rt1) with 0 by (unfold h; lia).
  replace (S h - length rt1) with 1 by (unfold h; lia).
  replace (S (S h) - length rt1) with 2 by (unfold h; lia).
  done.
Qed.

Lemma reachable_all_or_none (rt0 : runtime) (x : t * runtime) :
  reachable rt0 x → all_or_none rt0 x.
Proof.
  induction 1 as [|s rt cfg _ IH|s rt _ IH].
  - left. done.
  - destruct IH as [(Hs & Hi & Hl)|Hrun]; simpl in *.
    + right. destruct (start_stopped s rt cfg Hs) as (d1 & d2 & d3 & ->).
      simpl. split; [done|]. by exists rt, d1, d2, d3.
    + pose proof Hrun as (Hs & _). unfold start. rewrite Hs. by right.
  - destruct IH as [(Hs & Hi & Hl)|(Hs & rt1 & d1 & d2 & d3 & Hrt & Hl & Hi)];
      simpl in *.
    + unfold stop. rewrite Hs. simpl. by left.
    + destruct s as [iv running]. simpl in *. subst.
      rewrite stop_installed. left. simpl. by rewrite live_cancelled.
Qed.

(** C8.  [start] on a running service and [stop] on a stopped one change
    nothing; [start] on a stopped service installs the three intervals
    and sets it running; on every reachable state the service is either
    stopped with none of its intervals in the runtime or running with all
    three, and [stop] on a reachable running state cancels the three and
    sets it stopped. *)
Theorem scheduler_all_or_none (rt0 : runtime) :
  (∀ s rt cfg, isRunning s = true → start s rt cfg = (s, rt))
  ∧ (∀ s rt, isRunning s = false → stop s rt = (s, rt))
  ∧ (∀ s rt cfg, isRunning s = false →
       ∃ d1 d2 d3,
         isRunning (start s rt cfg).1 = true
         ∧ intervals_ (start s rt cfg).1
           = Intervals (Some (length rt)) (Some (S (length rt)))
               (Some (S (S (length rt))))
         ∧ live (start s rt cfg).2 = live rt ++ installed (length rt) d1 d2 d3)
  ∧ (∀ s rt, reachable rt0 (s, rt) →
       (isRunning s = false
        ∧ intervals_ s = Intervals None None None
        ∧ live rt = live rt0)
       ∨ (isRunning s = true
          ∧ ∃ h d1 d2 d3,
              intervals_ s = Intervals (Some h) (Some (S h)) (Some (S (S h)))
              ∧ live rt = live rt0 ++ installed h d1 d2 d3
              ∧ isRunning (stop s rt).1 = false
              ∧ intervals_ (stop s rt).1 = Intervals None None None
              ∧ live (stop s rt).2 = live rt0)).
Proof.
  split; [|split; [|split]].
  - intros s rt cfg Hs. unfold start. by rewrite Hs.
  - intros s rt Hs. unfold stop. by rewrite Hs.
  - intros s rt cfg Hs.
    destruct (start_stopped s rt cfg Hs) as (d1 & d2 & d3 & ->).
    exists d1, d2, d3. simpl. by rewrite live_installed.
  - intros s rt Hr. apply reachable_all_or_none in Hr.
    destruct Hr as [?|(Hs & rt1 & d1 & d2 & d3 & Hrt & Hl & Hi)]; [by left|].
    right. simpl in *. split; [done|]. exists (length rt1), d1, d2, d3.
    destruct s as [iv running]. simpl in *. subst.
    rewrite stop_installed, live_installed. simpl.
    by rewrite live_cancelled, Hl.
Qed.

(** start, start again, stop, stop again, start: the handles of a second
    start are fresh ones *)
Example scheduler_run :
  let cfg := Config None None None in
  let '(s1, rt1) := start new [] cfg in
  let '(s2, rt2) := start s1 rt1 cfg in
  let '(s3, rt3) := stop s2 rt2 in
  let '(s4, rt4) := stop s3 rt3 in
  let '(s5, rt5) := start s4 rt4 (Config (Some 1000%Z) None None) in
  (s2, rt2) = (s1, rt1)
  ∧ live rt1 = installed 0 300000 600000 3600000
  ∧ getStatus s1 = (true, JobFlags true true true)
  ∧ live rt3 = []
  ∧ getStatus s3 = (false, JobFlags false false false)
  ∧ (s4, rt4) = (s3, rt3)
  ∧ live rt5 = installed 3 1000 600000 3600000.
Proof. vm_compute. done. Qed.

End BackgroundJobServiceProps.


(* ===================================================================== *)
(** * Further properties of the cache *)
(* ===================================================================== *)

Module CacheServiceMore.
Import CacheService CacheServiceProps.

Section Store.
Context {V : Type}.
Implicit Types (c : t V) (e : entry V) (v : option V).

Lemma foldl_tally now (l : list (entry V)) (x y : nat) :
  foldl (tally now) (x, y) l
  = (x + length (filter (λ e, (now > expiresAt e)%Z) l),
     y + length (filter (λ e, ¬ (now > expiresAt e)%Z) l)).
Proof.
  revert x y. induction l as [|e l IH]; intros x y; simpl.
  { by rewrite !Nat.add_0_r. }
  rewrite !filter_cons. case_decide as Hexp; rewrite IH.
  - rewrite decide_False by tauto. simpl. f_equal; lia.
  - rewrite decide_True by done. simpl. f_equal; lia.
Qed.

Lemma clearExpired_filter c now :
  cache (clearExpired c now)
  = filter (λ kv, ¬ (now > expiresAt kv.2)%Z) (cache c).
Proof.
  apply map_eq. intros key. rewrite clearExpired_lookup, map_lookup_filter.
  destruct (cache c !! key) as [e|]; simpl; [|done].
  case_decide; [by rewrite option_guard_False by tauto|].
  by rewrite option_guard_True.
Qed.

Lemma length_filter_snd {A B} (Q : B → Prop)
    `{Hpair : !∀ kv : A * B, Decision (Q kv.2)} `{Hval : !∀ y, Decision (Q y)}
    (l : list (A * B)) :
  length (filter (λ kv, Q kv.2) l) = length (filter Q l.*2).
Proof.
  induction l as [|[k y] l IH]; [done|]. csimpl.
  rewrite !filter_cons. simpl.
  destruct (Hpair (k, y)), (Hval y); simpl in *; by rewrite ?IH.
Qed.

Lemma size_filter_entries (Q : entry V → Prop)
    `{Hpair : !∀ kv : string * entry V, Decision (Q kv.2)}
    `{Hval : !∀ e, Decision (Q e)} (m : gmap string (entry V)) :
  size (filter (λ kv : string * entry V, Q kv.2) m)
  = length (filter Q (map_to_list m).*2).
Proof.
  rewrite <-(length_filter_snd Q (Hpair := Hpair)), map_filter_alt,
    <-length_map_to_list.
  apply Permutation_length, map_to_list_to_map.
  apply (sublist_NoDup _ _ (NoDup_fst_map_to_list m)).
  apply fmap_sublist, sublist_filter.
Qed.

Lemma get_unexpired_entry c key now :
  cache (get c key now).2 !! key
  = e ← cache c !! key; guard (¬ (now > expiresAt e)%Z);; Some e.
Proof.
  unfold get. destruct (cache c !! key) as [e|] eqn:He; simpl.
  - case_decide; simpl.
    + by rewrite lookup_delete_eq, option_guard_False by tauto.
    + by rewrite He, option_guard_True.
  - by rewrite He.
Qed.

Lemma getStats_expired c now :
  expired (getStats c now)
  = size (filter (λ kv : string * entry V, (now > expiresAt kv.2)%Z) (cache c)).
Proof.
  unfold getStats. rewrite foldl_tally. simpl. symmetry.
  apply (size_filter_entries (λ e, (now > expiresAt e)%Z)).
Qed.

Lemma getStats_valid c now :
  valid (getStats c now) = size (cache (clearExpired c now)).
Proof.
  unfold getStats. rewrite foldl_tally, clearExpired_filter. simpl. symmetry.
  apply (size_filter_entries (λ e, ¬ (now > expiresAt e)%Z)).
Qed.

Lemma cache_ext (c1 c2 : t V) :
  cache c1 = cache c2 → ttl c1 = ttl c2 → c1 = c2.
Proof. destruct c1, c2. simpl. by intros -> ->. Qed.

Lemma clearExpired_idem c now :
  clearExpired (clearExpired c now) now = clearExpired c now.
Proof.
  apply cache_ext; [|done].
  apply map_eq. intros key. rewrite !clearExpired_lookup.
  destruct (cache c !! key) as [e|]; [|done].
  case_decide as Hexp; [done|]. by rewrite decide_False.
Qed.

(** X1.  The sweep keeps exactly the entries that are not expired at
    [now], each unchanged, and the default ttl; a [get] right after the
    sweep returns what it would have returned before and finds nothing
    left to delete; the statistics then count no expired entry; sweeping
    twice is sweeping once. *)
Theorem clearExpired_sweeps c now :
  cache (clearExpired c now)
  = filter (λ kv, ¬ (now > expiresAt kv.2)%Z) (cache c)
  ∧ ttl (clearExpired c now) = ttl c
  ∧ (∀ key, get (clearExpired c now) key now
            = ((get c key now).1, clearExpired c now))
  ∧ expired (getStats (clearExpired c now) now) = 0
  ∧ valid (getStats (clearExpired c now) now)
    = total (getStats (clearExpired c now) now)
  ∧ clearExpired (clearExpired c now) now = clearExpired c now.
Proof.
  split; [apply clearExpired_filter|]. split; [done|]. split.
  { intros key. unfold get. rewrite clearExpired_lookup.
    destruct (cache c !! key) as [e|]; [|done].
    case_decide as Hexp; [done|]. by rewrite decide_False. }
  split; [|split; [|apply clearExpired_idem]].
  - rewrite getStats_expired.
    assert (filter (λ kv : string * entry V, (now > expiresAt kv.2)%Z)
              (cache (clearExpired c now)) = ∅) as ->; [|done].
    apply map_eq. intros key.
    rewrite map_lookup_filter, clearExpired_lookup, lookup_empty.
    destruct (cache c !! key) as [e|]; [|done].
    case_decide as Hexp; [done|]. simpl. by rewrite option_guard_False.
  - rewrite getStats_valid, clearExpired_idem. unfold getStats.
    by destruct (foldl _ _ _).
Qed.

(** X2.  The statistics: every entry is counted once, as valid or as
    expired; the valid ones are those a sweep at that instant would keep;
    [getKeys] lists one key per entry, the expired ones included. *)
Theorem getStats_counts c now :
  total (getStats c now) = valid (getStats c now) + expired (getStats c now)
  ∧ total (getStats c now) = size (cache c)
  ∧ valid (getStats c now) = size (cache (clearExpired c now))
  ∧ defaultTtl (getStats c now) = ttl c
  ∧ length (getKeys c) = total (getStats c now)
  ∧ NoDup (getKeys c)
  ∧ (∀ key, key ∈ getKeys c ↔ is_Some (cache c !! key)).
Proof.
  assert (total (getStats c now) = size (cache c)
          ∧ defaultTtl (getStats c now) = ttl c) as [Ht Hd].
  { unfold getStats. by destruct (foldl _ _ _). }
  split; [|split; [done|split; [apply getStats_valid|split; [done|]]]].
  - rewrite Ht. unfold getStats. rewrite foldl_tally. simpl.
    rewrite <-length_map_to_list, <-(length_fmap snd).
    rewrite <-(filter_app_complement (λ e : entry V, (now > expiresAt e)%Z)
                 (map_to_list (cache c)).*2) at 1.
    rewrite length_app. lia.
  - unfold getKeys. rewrite Ht, length_fmap, length_map_to_list.
    split; [done|]. split; [apply NoDup_fst_map_to_list|].
    intros key. rewrite list_elem_of_fmap. split.
    + intros ([k e] & -> & Hin%elem_of_map_to_list). eauto.
    + intros [e He]. exists (key, e). split; [done|].
      by apply elem_of_map_to_list.
Qed.

(** X3.  Removing expired entries is not observable through [get]: after
    a [get] of any key, or a sweep, at time [now], a [get] at [now] or
    later returns what it would have returned without them. *)
Theorem expiry_removal_unobservable c key1 key2 now now' :
  (now ≤ now')%Z →
  (get (get c key1 now).2 key2 now').1 = (get c key2 now').1
  ∧ (get (clearExpired c now) key2 now').1 = (get c key2 now').1
  ∧ (has (get c key1 now).2 key2 now').1 = (has c key2 now').1
  ∧ (has (clearExpired c now) key2 now').1 = (has c key2 now').1.
Proof.
  intros Hle.
  assert ((get (get c key1 now).2 key2 now').1 = (get c key2 now').1) as H1.
  { unfold get at 2. destruct (cache c !! key1) as [e1|] eqn:He1; [|done].
    case_decide as Hexp; [|done]. cbn [snd]. unfold get. cbn [cache].
    destruct (decide (key1 = key2)) as [<-|Hne].
    - rewrite lookup_delete_eq, He1. rewrite decide_True by lia. done.
    - rewrite lookup_delete_ne by done.
      destruct (cache c !! key2); [|done]. by case_decide. }
  assert ((get (clearExpired c now) key2 now').1 = (get c key2 now').1) as H2.
  { unfold get. rewrite clearExpired_lookup.
    destruct (cache c !! key2) as [e|]; [|done].
    case_decide as Hexp.
    - rewrite decide_True by lia. done.
    - by case_decide. }
  split; [done|]. split; [done|]. unfold has.
  destruct (get (get c key1 now).2 key2 now') as [x1 ?].
  destruct (get (clearExpired c now) key2 now') as [x2 ?].
  destruct (get c key2 now') as [x ?]. simpl in *. by subst.
Qed.

(** X4.  [has] answers [true] exactly for a present, unexpired entry whose
    value is not null, and leaves the cache as [get] does; a key set to
    null is reported absent at all times although [getKeys] lists it. *)
Theorem has_iff_visible_value c key now :
  ((has c key now).1 = true
   ↔ ∃ e x, cache c !! key = Some e ∧ (now ≤ expiresAt e)%Z
            ∧ value e = Some x)
  ∧ (has c key now).2 = (get c key now).2
  ∧ (∀ ttl_arg t0 stamp now',
       (has (set c key None ttl_arg t0 stamp) key now').1 = false
       ∧ key ∈ getKeys (set c key None ttl_arg t0 stamp)).
Proof.
  split; [|split].
  - unfold has, get. destruct (cache c !! key) as [e|]; simpl.
    + case_decide as Hexp; simpl.
      * split; [done|]. intros (e' & x & [= <-] & ? & _). lia.
      * destruct (value e) as [x|] eqn:Hv; simpl.
        -- split; [|done]. intros _. exists e, x. split; [done|]. split; [lia|done].
        -- split; [done|]. intros (e' & x & [= <-] & _ & ?). congruence.
    + split; [done|]. by intros (? & ? & ? & _).
  - unfold has. by destruct (get c key now).
  - intros ttl_arg t0 stamp now'. split.
    + unfold has, get. rewrite set_lookup. simpl. by case_decide.
    + unfold getKeys. apply list_elem_of_fmap.
      eexists (key, _). split; [done|].
      apply elem_of_map_to_list, set_lookup.
Qed.

(** X5.  [set] overwrites unconditionally: two writes to one key leave
    what the second alone leaves; a write to one key changes nothing of
    what [get] and [has] return for another key, so after writes to two
    different keys every [get] and [has] returns the same whichever
    write came first; a write adds an entry only for a new key and never
    changes the default ttl. *)
Theorem set_overwrites c key v1 a1 t1 s1 v2 a2 t2 s2 :
  set (set c key v1 a1 t1 s1) key v2 a2 t2 s2 = set c key v2 a2 t2 s2
  ∧ (∀ key' now, key ≠ key' →
       (get (set c key v1 a1 t1 s1) key' now).1 = (get c key' now).1
       ∧ (has (set c key v1 a1 t1 s1) key' now).1 = (has c key' now).1)
  ∧ (∀ key' k now, key ≠ key' →
       (get (set (set c key v1 a1 t1 s1) key' v2 a2 t2 s2) k now).1
       = (get (set (set c key' v2 a2 t2 s2) key v1 a1 t1 s1) k now).1
       ∧ (has (set (set c key v1 a1 t1 s1) key' v2 a2 t2 s2) k now).1
         = (has (set (set c key' v2 a2 t2 s2) key v1 a1 t1 s1) k now).1)
  ∧ size (cache (set c key v1 a1 t1 s1))
    = (if decide (is_Some (cache c !! key)) then size (cache c)
       else S (size (cache c)))
  ∧ ttl (set c key v1 a1 t1 s1) = ttl c.
Proof.
  assert (∀ (c1 c2 : t V) k now, cache c1 !! k = cache c2 !! k →
            (get c1 k now).1 = (get c2 k now).1
            ∧ (has c1 k now).1 = (has c2 k now).1) as Hread.
  { intros c1 c2 k now Hk. unfold has, get. rewrite Hk.
    destruct (cache c2 !! k) as [e|]; [|done]. by case_decide. }
  split; [|split; [|split; [|split; [|done]]]].
  - unfold set. simpl. by rewrite insert_insert_eq.
  - intros key' now Hne. apply Hread. unfold set. cbn [cache].
    by rewrite lookup_insert_ne.
  - intros key' k now Hne. apply Hread. unfold set. cbn [cache].
    by rewrite insert_insert_ne.
  - unfold set. simpl. rewrite map_size_insert.
    destruct (cache c !! key) as [e|] eqn:He.
    + by rewrite decide_True by eauto.
    + rewrite decide_False; [done|]. by intros [? ?].
Qed.

(** X6.  [delete] answers [true] exactly when the key had an entry,
    expired or not; afterwards every [get] of the key misses and the
    other entries are as before; when it answers [false] nothing changed.
    An expired entry that no sweep has removed yet is absent for [has]
    and present for [delete]. *)
Theorem delete_reports_presence c key :
  ((delete_ c key).1 = true ↔ key ∈ getKeys c)
  ∧ (∀ now, get (delete_ c key).2 key now = (None, (delete_ c key).2))
  ∧ (∀ key', key' ≠ key →
       cache (delete_ c key).2 !! key' = cache c !! key')
  ∧ size (cache (delete_ c key).2)
    = (if (delete_ c key).1 then pred (size (cache c)) else size (cache c))
  ∧ ((delete_ c key).1 = false → (delete_ c key).2 = c)
  ∧ (∀ e now, cache c !! key = Some e → (now > expiresAt e)%Z →
       (has c key now).1 = false ∧ (delete_ c key).1 = true).
Proof.
  unfold delete_. simpl.
  split; [|split; [|split; [|split; [|split]]]].
  - rewrite bool_decide_eq_true. unfold getKeys. rewrite list_elem_of_fmap.
    split.
    + intros [e He]. exists (key, e). split; [done|].
      by apply elem_of_map_to_list.
    + intros ([k e] & -> & Hin%elem_of_map_to_list). eauto.
  - intros now. apply get_absent. simpl. apply lookup_delete_eq.
  - intros key' Hne. by apply lookup_delete_ne.
  - rewrite map_size_delete. case_bool_decide as Hin.
    + by destruct Hin as [e ->].
    + apply eq_None_not_Some in Hin. by rewrite Hin.
  - intros Hnot%bool_decide_eq_false.
    rewrite delete_id by (by apply eq_None_not_Some). apply cache_eta.
  - intros e now He Hexp. split.
    + unfold has, get. rewrite He. by rewrite decide_True.
    + apply bool_decide_eq_true. eauto.
Qed.

End Store.

Lemma expiry_removal_unobservable_witness :
  let c := set (new (V := nat)) "k" (Some 7) (Some 100%Z) 0 0 in
  (get (get c "k" 150).2 "k" 200).1 = (get c "k" 200).1
  ∧ (get (clearExpired c 50) "k" 60).1 = (get c "k" 60).1.
Proof.
  intros c.
  destruct (expiry_removal_unobservable c "k" "k" 150 200) as (H1 & _);
    [lia|].
  destruct (expiry_removal_unobservable c "k" "k" 50 60) as (_ & H2 & _);
    [lia|].
  split; [exact H1|exact H2].
Defined.

End CacheServiceMore.

(* ===================================================================== *)
(** * Further properties of the article store *)
(* ===================================================================== *)

Module ArticleMore.
Import Article ArticleProps.

Lemma store_ext (st1 st2 : t) :
  readArticles st1 = readArticles st2 →
  favoriteArticles st1 = favoriteArticles st2 →
  articleMetadata st1 = articleMetadata st2 → st1 = st2.
Proof. destruct st1, st2. simpl. by intros -> -> ->. Qed.

Lemma addRead_idem (st : t) (u : userId) (k : string) :
  addRead (addRead st u k) u k = addRead st u k.
Proof.
  apply store_ext; [|done..].
  unfold addRead at 1. cbn [readArticles]. rewrite addRead_lookup. simpl.
  unfold addRead. cbn [readArticles].
  rewrite lookup_insert_eq, insert_insert_eq. simpl. f_equal. set_solver.
Qed.

Lemma addRead_already (st : t) (u : userId) (k : string) :
  isRead st u k = true → addRead st u k = st.
Proof.
  unfold isRead. destruct (readArticles st !! u) as [s|] eqn:Hs; [|done].
  intros Hk%bool_decide_eq_true. apply store_ext; [|done..].
  unfold addRead. cbn [readArticles]. rewrite Hs. simpl.
  apply insert_id. rewrite Hs. f_equal. set_solver.
Qed.

Lemma totalRead_addRead (st : t) (u : userId) (k : string) :
  totalRead (getUserStats (addRead st u k) u)
  = if isRead st u k then totalRead (getUserStats st u)
    else S (totalRead (getUserStats st u)).
Proof.
  unfold getUserStats. cbn [totalRead]. rewrite addRead_lookup.
  unfold isRead. destruct (readArticles st !! u) as [s|]; cbn [default].
  - case_bool_decide as Hk.
    + f_equal. set_solver.
    + rewrite size_union by set_solver. by rewrite size_singleton.
  - by rewrite union_empty_r_L, size_singleton.
Qed.

Lemma storeArticleMetadata_present (st : t) (a : article) (now : Z) :
  is_Some (articleMetadata (storeArticleMetadata st a now).2
             !! generateArticleId (url a)).
Proof.
  unfold storeArticleMetadata. cbn [snd].
  destruct (articleMetadata st !! _) eqn:Hm; [by rewrite Hm|].
  cbn [articleMetadata]. rewrite lookup_insert_eq. eauto.
Qed.

Lemma storeArticleMetadata_noop (st : t) (a : article) (now : Z) :
  is_Some (articleMetadata st !! generateArticleId (url a)) →
  storeArticleMetadata st a now = (generateArticleId (url a), st).
Proof. intros [m Hm]. unfold storeArticleMetadata. by rewrite Hm. Qed.

(** X7.  Marking as read is idempotent: a second mark of the same id (or
    of the same article) for the same user leaves the store as the first
    left it, a mark of an id already read changes nothing, and [totalRead]
    grows by one exactly when the id was not read before. *)
Theorem markAsRead_idempotent
    (st : t) (u : userId) (k : string) (a : article) (t1 t2 t3 t4 : Z) :
  (markAsReadById (markAsReadById st u k t1).2 u k t2).2
  = (markAsReadById st u k t1).2
  ∧ (markAsRead (markAsRead st u a t1 t2).2 u a t3 t4).2
    = (markAsRead st u a t1 t2).2
  ∧ (isRead st u k = true → (markAsReadById st u k t1).2 = st)
  ∧ totalRead (getUserStats (markAsReadById st u k t1).2 u)
    = (if isRead st u k then totalRead (getUserStats st u)
       else S (totalRead (getUserStats st u))).
Proof.
  split; [apply addRead_idem|]. split; [|split].
  - unfold markAsRead.
    pose proof (storeArticleMetadata_present st a t1) as Hpresent.
    destruct (storeArticleMetadata st a t1) as [k1 st1] eqn:H1.
    assert (k1 = generateArticleId (url a)) as ->
      by (by injection H1 as <- _).
    cbn [snd] in *.
    rewrite (storeArticleMetadata_noop (addRead st1 u _) a t3) by done.
    cbn [snd]. apply addRead_idem.
  - apply addRead_already.
  - apply totalRead_addRead.
Qed.

(** X8.  Marking an article as read by its payload returns the id derived
    from its URL, makes [isRead] true, and the metadata stored under that
    id is listed by [getReadArticles]: the article's own metadata when the
    id was new, the metadata already there otherwise. *)
Theorem markAsRead_lists_metadata
    (st : t) (u : userId) (a : article) (t1 t2 : Z) :
  let articleId := generateArticleId (url a) in
  let st' := (markAsRead st u a t1 t2).2 in
  (markAsRead st u a t1 t2).1 = ReadResult articleId t2
  ∧ isRead st' u articleId = true
  ∧ ∃ m, articleMetadata st' !! articleId = Some m
         ∧ m ∈ getReadArticles st' u
         ∧ (∀ m0, articleMetadata st !! articleId = Some m0 → m = m0)
         ∧ (articleMetadata st !! articleId = None →
              m = Metadata articleId (url a) (title a) (description a)
                    (content a) (image a) (publishedAt a) (source_ a) t1).
Proof.
  intros articleId st'. unfold st', markAsRead.
  pose proof (storeArticleMetadata_present st a t1) as [m Hm].
  assert ((∀ m0, articleMetadata st !! articleId = Some m0 → m = m0)
          ∧ (articleMetadata st !! articleId = None →
               m = Metadata articleId (url a) (title a) (description a)
                     (content a) (image a) (publishedAt a) (source_ a) t1))
    as Hwhich.
  { revert Hm. unfold storeArticleMetadata. cbn [snd]. fold articleId.
    destruct (articleMetadata st !! articleId) as [m0|] eqn:H0.
    - rewrite H0. intros [= ->]. split; [by intros ? [= ->]|done].
    - cbn [articleMetadata]. rewrite lookup_insert_eq. intros [= <-].
      split; [done|]. by intros _. }
  destruct (storeArticleMetadata st a t1) as [k1 st1] eqn:H1.
  assert (k1 = articleId) as -> by (by injection H1 as <- _).
  cbn [fst snd] in *. split; [done|].
  assert (isRead (addRead st1 u articleId) u articleId = true) as Hread.
  { unfold isRead. rewrite addRead_lookup. apply bool_decide_eq_true.
    set_solver. }
  split; [done|]. exists m. split; [done|]. split; [|done].
  unfold getReadArticles. rewrite addRead_lookup.
  apply list_elem_of_omap. exists articleId. split; [|done].
  apply elem_of_elements. set_solver.
Qed.

Lemma length_omap_eq {A B} (f : A → option B) (l : list A) :
  length (omap f l) = length l ↔ ∀ x, x ∈ l → is_Some (f x).
Proof.
  induction l as [|x l IH]; csimpl.
  { split; [by intros _ ? ?%elem_of_nil|done]. }
  pose proof (length_omap_le f l) as Hle.
  destruct (f x) as [y|] eqn:Hx; simpl.
  - split.
    + intros [= Hlen] z [->|Hz]%elem_of_cons; [eauto|]. by apply IH.
    + intros Hall. f_equal. apply IH. intros z Hz. apply Hall. by right.
  - split; [lia|]. intros Hall. destruct (Hall x) as [y Hy]; [left|].
    congruence.
Qed.

(** X9.  The favorites list always has [totalFavorites] entries; the
    read list has at most [totalRead] entries, and exactly that many only
    when every id the user has read has metadata.  The [totalRead] that
    the read-list route reports is the length of the list, so it can be
    below the [totalRead] of the statistics route. *)
Theorem tracked_list_lengths (st : t) (u : userId) :
  length (getFavoriteArticles st u) = totalFavorites (getUserStats st u)
  ∧ length (getReadArticles st u) ≤ totalRead (getUserStats st u)
  ∧ (length (getReadArticles st u) = totalRead (getUserStats st u)
     ↔ ∀ k, isRead st u k = true → is_Some (articleMetadata st !! k))
  ∧ ArticleController.rl_totalRead (ArticleController.getReadArticles st u)
    ≤ totalRead (ArticleController.getArticleStats st u).2
  ∧ ArticleController.fl_totalFavorites
      (ArticleController.getFavoriteArticles st u)
    = totalFavorites (ArticleController.getArticleStats st u).2.
Proof.
  assert (length (getFavoriteArticles st u)
          = totalFavorites (getUserStats st u)) as Hfav.
  { unfold getFavoriteArticles, getUserStats. cbn [totalFavorites].
    destruct (favoriteArticles st !! u) as [favMap|]; [|done].
    by rewrite length_fmap, length_map_to_list. }
  assert (length (getReadArticles st u) ≤ totalRead (getUserStats st u))
    as Hread.
  { unfold getReadArticles, getUserStats. cbn [totalRead].
    destruct (readArticles st !! u) as [s|]; [|done].
    apply length_omap_le. }
  split; [done|]. split; [done|]. split; [|by split].
  unfold getReadArticles, getUserStats, isRead. cbn [totalRead].
  destruct (readArticles st !! u) as [s|]; [|done].
  unfold size, set_size. simpl. rewrite length_omap_eq.
  split; intros Hall k Hk.
  - apply Hall, elem_of_elements. by apply bool_decide_eq_true in Hk.
  - apply Hall, bool_decide_eq_true. by apply elem_of_elements.
Qed.

Lemma putFavorite_lookup (st : t) (u : userId) (k : string) (f : favorite) :
  favoriteArticles (putFavorite st u k f) !! u
  = Some (<[k := f]> (default ∅ (favoriteArticles st !! u))).
Proof.
  unfold putFavorite. cbn [favoriteArticles]. rewrite lookup_insert_eq.
  destruct (favoriteArticles st !! u) as [favMap|] eqn:Hu.
  - by rewrite Hu.
  - by rewrite lookup_insert_eq.
Qed.

Lemma putFavorite_lookup_ne (st : t) (u u' : userId) (k : string) (f : favorite) :
  u ≠ u' →
  favoriteArticles (putFavorite st u k f) !! u' = favoriteArticles st !! u'.
Proof.
  intros Hne. unfold putFavorite. cbn [favoriteArticles].
  rewrite lookup_insert_ne by done.
  destruct (favoriteArticles st !! u); [done|]. by rewrite lookup_insert_ne.
Qed.

Lemma isFavorite_default (st : t) (u : userId) (k : string) :
  isFavorite st u k
  = bool_decide (is_Some (default ∅ (favoriteArticles st !! u) !! k)).
Proof.
  unfold isFavorite. destruct (favoriteArticles st !! u); [done|]. simpl.
  rewrite lookup_empty. symmetry. apply bool_decide_eq_false. by intros [? ?].
Qed.

(** X10.  Favoriting by id files, under that id, a copy of the current
    metadata of the id with the time, or the bare id with the time when
    the id has no metadata; it overwrites an earlier entry of the id, so
    [totalFavorites] grows by one exactly when the id was not a favorite;
    the user's other favorites, all read sets and the metadata stay. *)
Theorem markAsFavoriteById_records (st : t) (u : userId) (k : string) (now : Z) :
  let st' := (markAsFavoriteById st u k now).2 in
  let entry := match articleMetadata st !! k with
               | Some m => FavSnapshot m now
               | None => FavMinimal k now
               end in
  (markAsFavoriteById st u k now).1 = FavoriteResult k now
  ∧ favoriteArticles st' !! u
    = Some (<[k := entry]> (default ∅ (favoriteArticles st !! u)))
  ∧ isFavorite st' u k = true
  ∧ entry ∈ getFavoriteArticles st' u
  ∧ (∀ k', k' ≠ k → isFavorite st' u k' = isFavorite st u k')
  ∧ totalFavorites (getUserStats st' u)
    = (if isFavorite st u k then totalFavorites (getUserStats st u)
       else S (totalFavorites (getUserStats st u)))
  ∧ readArticles st' = readArticles st
  ∧ articleMetadata st' = articleMetadata st.
Proof.
  intros st' entry. unfold st', markAsFavoriteById. cbn [fst snd].
  fold entry. split; [done|].
  split; [apply putFavorite_lookup|]. split; [|split; [|split; [|split]]].
  - rewrite isFavorite_default, putFavorite_lookup. simpl.
    apply bool_decide_eq_true. rewrite lookup_insert_eq. eauto.
  - unfold getFavoriteArticles. rewrite putFavorite_lookup.
    apply list_elem_of_fmap. exists (k, entry). split; [done|].
    apply elem_of_map_to_list, lookup_insert_eq.
  - intros k' Hne. rewrite !isFavorite_default, putFavorite_lookup. simpl.
    by rewrite lookup_insert_ne.
  - unfold getUserStats. cbn [totalFavorites]. rewrite putFavorite_lookup.
    rewrite isFavorite_default, map_size_insert.
    destruct (favoriteArticles st !! u) as [favMap|]; simpl.
    + destruct (favMap !! k) as [f|] eqn:Hk.
      * by rewrite bool_decide_eq_true_2 by eauto.
      * rewrite bool_decide_eq_false_2; [done|]. by intros [? ?].
    + rewrite lookup_empty. rewrite bool_decide_eq_false_2; [done|].
      by intros [? ?].
  - done.
Qed.

Lemma getFavoriteArticles_default (st : t) (u : userId) :
  getFavoriteArticles st u
  = (map_to_list (default ∅ (favoriteArticles st !! u))).*2.
Proof.
  unfold getFavoriteArticles. destruct (favoriteArticles st !! u); [done|].
  simpl. by rewrite map_to_list_empty.
Qed.

Lemma totalFavorites_default (st : t) (u : userId) :
  totalFavorites (getUserStats st u)
  = size (default ∅ (favoriteArticles st !! u)).
Proof.
  unfold getUserStats. cbn [totalFavorites].
  destruct (favoriteArticles st !! u); [done|]. simpl.
  by rewrite map_size_empty.
Qed.

Lemma removeFavorite_lookup (st : t) (u : userId) (k : string) :
  default ∅ (favoriteArticles (removeFavorite st u k).2 !! u)
  = delete k (default ∅ (favoriteArticles st !! u)).
Proof.
  unfold removeFavorite.
  destruct (favoriteArticles st !! u) as [favMap|] eqn:Hu; cbn [snd].
  - cbn [favoriteArticles]. by rewrite lookup_insert_eq.
  - rewrite Hu. simpl. by rewrite delete_empty.
Qed.

Lemma removeFavorite_lookup_ne (st : t) (u u' : userId) (k : string) :
  u ≠ u' →
  favoriteArticles (removeFavorite st u k).2 !! u'
  = favoriteArticles st !! u'.
Proof.
  intros Hne. unfold removeFavorite.
  destruct (favoriteArticles st !! u); [|done].
  cbn [snd favoriteArticles]. by rewrite lookup_insert_ne.
Qed.

(** X11.  Favoriting an id that was not a favorite and then removing it
    is a round trip for every observer: [removeFavorite] answers [true],
    and for every user the favorites, the favorite flags, the statistics
    and the read list are what they were before the two calls. *)
Theorem favorite_then_remove (st : t) (u : userId) (k : string) (now : Z) :
  isFavorite st u k = false →
  let st1 := (markAsFavoriteById st u k now).2 in
  let st2 := (removeFavorite st1 u k).2 in
  (removeFavorite st1 u k).1 = true
  ∧ (∀ u' k', isFavorite st2 u' k' = isFavorite st u' k')
  ∧ (∀ u', getFavoriteArticles st2 u' = getFavoriteArticles st u')
  ∧ (∀ u', getUserStats st2 u' = getUserStats st u')
  ∧ (∀ u', getReadArticles st2 u' = getReadArticles st u')
  ∧ readArticles st2 = readArticles st
  ∧ articleMetadata st2 = articleMetadata st.
Proof.
  intros Hnot st1 st2.
  assert (default ∅ (favoriteArticles st !! u) !! k = None) as Hk.
  { rewrite isFavorite_default in Hnot.
    apply bool_decide_eq_false in Hnot. by apply eq_None_not_Some. }
  assert (readArticles st2 = readArticles st) as Hreads.
  { unfold st2, removeFavorite.
    by destruct (favoriteArticles st1 !! u). }
  assert (articleMetadata st2 = articleMetadata st) as Hmd.
  { unfold st2. by rewrite removeFavorite_metadata. }
  assert (∀ u', default ∅ (favoriteArticles st2 !! u')
                = default ∅ (favoriteArticles st !! u')) as Hfavs.
  { intros u'. destruct (decide (u = u')) as [<-|Hne].
    - unfold st2. rewrite removeFavorite_lookup. unfold st1, markAsFavoriteById.
      cbn [snd]. rewrite putFavorite_lookup. simpl.
      rewrite delete_insert_eq. by apply delete_id.
    - unfold st2. rewrite removeFavorite_lookup_ne by done.
      unfold st1, markAsFavoriteById. cbn [snd].
      by rewrite putFavorite_lookup_ne. }
  split.
  { unfold removeFavorite, st1, markAsFavoriteById. cbn [snd].
    rewrite putFavorite_lookup. cbn [fst]. apply bool_decide_eq_true.
    rewrite lookup_insert_eq. eauto. }
  split; [by intros u' k'; rewrite !isFavorite_default, Hfavs|].
  split; [by intros u'; rewrite !getFavoriteArticles_default, Hfavs|].
  split; [|split; [|done]].
  - intros u'. pose proof (totalFavorites_default st2 u') as H2.
    pose proof (totalFavorites_default st u') as H0. rewrite Hfavs in H2.
    unfold getUserStats in *. cbn [totalFavorites] in *.
    rewrite Hreads, Hmd. f_equal. congruence.
  - intros u'. unfold getReadArticles. by rewrite Hreads, Hmd.
Qed.

Lemma favorite_then_remove_witness :
  let st1 := (markAsFavoriteById new 1 "abc" 5).2 in
  (removeFavorite st1 1 "abc").1 = true
  ∧ getFavoriteArticles (removeFavorite st1 1 "abc").2 1
    = getFavoriteArticles new 1.
Proof.
  destruct (favorite_then_remove new 1 "abc" 5 eq_refl) as (H1 & _ & H2 & _).
  split; [exact H1|exact (H2 1)].
Defined.

(** X12.  The calls behind the three routes that change the store touch
    one user only: marking as read by id, favoriting by id and removing a
    favorite for user [u] leave what every other user sees unchanged. *)
Theorem requests_isolated
    (st : t) (u u' : userId) (k : string) (now : Z) :
  u ≠ u' →
  ∀ st', st' = (markAsReadById st u k now).2
         ∨ st' = (markAsFavoriteById st u k now).2
         ∨ st' = (removeFavorite st u k).2 →
    (∀ k', isRead st' u' k' = isRead st u' k')
    ∧ (∀ k', isFavorite st' u' k' = isFavorite st u' k')
    ∧ getReadArticles st' u' = getReadArticles st u'
    ∧ getFavoriteArticles st' u' = getFavoriteArticles st u'
    ∧ getUserStats st' u' = getUserStats st u'.
Proof.
  intros Hne st' Hst'.
  assert (readArticles st' !! u' = readArticles st !! u'
          ∧ favoriteArticles st' !! u' = favoriteArticles st !! u'
          ∧ articleMetadata st' = articleMetadata st) as (Hr & Hf & Hm).
  { destruct Hst' as [->|[->| ->]].
    - unfold markAsReadById, addRead. cbn [snd readArticles].
      rewrite lookup_insert_ne by done. split; [|done].
      destruct (readArticles st !! u); [done|]. by rewrite lookup_insert_ne.
    - unfold markAsFavoriteById. cbn [snd].
      by rewrite putFavorite_lookup_ne.
    - rewrite removeFavorite_lookup_ne, removeFavorite_metadata by done.
      split; [|done]. unfold removeFavorite.
      by destruct (favoriteArticles st !! u). }
  unfold isRead, isFavorite, getReadArticles, getFavoriteArticles, getUserStats.
  by rewrite Hr, Hf, Hm.
Qed.

Lemma requests_isolated_witness :
  getUserStats (markAsReadById new 1 "abc" 5).2 2 = getUserStats new 2.
Proof.
  destruct (requests_isolated new 1 2 "abc" 5 ltac:(done)
              (markAsReadById new 1 "abc" 5).2 (or_introl eq_refl))
    as (_ & _ & _ & _ & H).
  exact H.
Defined.

(** *** What the sweep leaves, for the invariants below *)

Lemma clearOldMetadata_keeps (st : t) (maxAge_arg : option Z) (now : Z) :
  let maxAge := default sevenDays maxAge_arg in
  let st' := (clearOldMetadata st maxAge_arg now).2 in
  readArticles st' = readArticles st
  ∧ favoriteArticles st' = favoriteArticles st
  ∧ (∀ k m, articleMetadata st' !! k = Some m
            ↔ articleMetadata st !! k = Some m
              ∧ ¬ (stale maxAge now m ∧ ¬ favorited st k))
  ∧ (clearOldMetadata st maxAge_arg now).1 + size (articleMetadata st')
    = size (articleMetadata st).
Proof.
  intros maxAge st'. unfold st', clearOldMetadata. fold maxAge.
  cbn [fst snd articleMetadata readArticles favoriteArticles].
  destruct (stale_ids_spec (articleMetadata st) maxAge now) as [Hnd0 Hin0].
  destruct (foldl_favorites_spec (map_to_list (favoriteArticles st)).*2 _ Hnd0)
    as [Hnd Hin]. cbn zeta in Hnd, Hin.
  set (toDelete := foldl _ _ (map_to_list (favoriteArticles st)).*2) in *.
  assert (∀ y, y ∈ toDelete ↔
            (∃ a, articleMetadata st !! y = Some a ∧ stale maxAge now a)
            ∧ ¬ favorited st y) as Hdel.
  { intros y. by rewrite Hin, Hin0, unfavorited_iff. }
  split; [done|]. split; [done|]. split.
  - intros k m. rewrite foldl_delete_lookup. case_decide as Hk.
    + apply Hdel in Hk as [(a & Ha & Hstale) Hfav]. split; [done|].
      intros [Hm Hnot]. simplify_eq. tauto.
    + split; [|tauto]. intros Hm. split; [done|].
      intros [Hstale Hfav]. apply Hk, Hdel. eauto.
  - apply foldl_delete_size; [done|].
    intros k ((a & Ha & _) & _)%Hdel. eauto.
Qed.

Lemma storeArticleMetadata_keeps (st : t) (a : article) (now : Z) :
  let st' := (storeArticleMetadata st a now).2 in
  readArticles st' = readArticles st
  ∧ favoriteArticles st' = favoriteArticles st
  ∧ articleMetadata st ⊆ articleMetadata st'
  ∧ (∀ k m, articleMetadata st' !! k = Some m →
       articleMetadata st !! k = Some m
       ∨ (k = generateArticleId (url a) ∧ id m = k ∧ m_url m = url a)).
Proof.
  unfold storeArticleMetadata. cbn [snd].
  destruct (articleMetadata st !! generateArticleId (url a)) eqn:Hm;
    cbn [readArticles favoriteArticles articleMetadata].
  - split; [done|]. split; [done|]. split; [done|]. auto.
  - split; [done|]. split; [done|]. split; [by apply insert_subseteq|].
    intros k m. rewrite lookup_insert. case_decide as Hk; [|auto].
    intros [= <-]. right. by subst.
Qed.

Lemma keyed_putFavorite (st : t) (u : userId) (k : string) (f : favorite) :
  favoriteId f = k → keyed st → keyed (putFavorite st u k f).
Proof.
  intros Hf [Hmd Hfav]. split; [done|].
  intros u' favMap key f' Hu' Hkey.
  destruct (decide (u = u')) as [<-|Hne].
  - rewrite putFavorite_lookup in Hu'. injection Hu' as <-.
    rewrite lookup_insert in Hkey. case_decide; [by simplify_eq|].
    destruct (favoriteArticles st !! u) as [fm|] eqn:Hu; simpl in Hkey.
    + by apply (Hfav u fm).
    + by rewrite lookup_empty in Hkey.
  - rewrite putFavorite_lookup_ne in Hu' by done. by apply (Hfav u' favMap).
Qed.

Lemma keyed_storeArticleMetadata (st : t) (a : article) (now : Z) :
  keyed st → keyed (storeArticleMetadata st a now).2.
Proof.
  intros [Hmd Hfav].
  destruct (storeArticleMetadata_keeps st a now) as (_ & Hf & _ & Hnew).
  split.
  - intros key m [Hold|(-> & Hid & Hurl)]%Hnew; [by apply Hmd|].
    split; [done|]. by rewrite Hurl.
  - intros u favMap key f. rewrite Hf. apply Hfav.
Qed.

Lemma keyed_removeFavorite (st : t) (u : userId) (k : string) :
  keyed st → keyed (removeFavorite st u k).2.
Proof.
  intros [Hmd Hfav]. split.
  - intros key m. rewrite removeFavorite_metadata. apply Hmd.
  - intros u' favMap key f Hu' Hkey.
    destruct (decide (u = u')) as [<-|Hne].
    + pose proof (removeFavorite_lookup st u k) as Hdel.
      rewrite Hu' in Hdel. simpl in Hdel. subst favMap.
      apply lookup_delete_Some in Hkey as [_ Hkey].
      destruct (favoriteArticles st !! u) as [fm|] eqn:Hu; simpl in Hkey.
      * by apply (Hfav u fm).
      * by rewrite lookup_empty in Hkey.
    + rewrite removeFavorite_lookup_ne in Hu' by done.
      by apply (Hfav u' favMap).
Qed.

Lemma keyed_clearOldMetadata (st : t) (maxAge_arg : option Z) (now : Z) :
  keyed st → keyed (clearOldMetadata st maxAge_arg now).2.
Proof.
  intros [Hmd Hfav].
  destruct (clearOldMetadata_keeps st maxAge_arg now) as (_ & Hf & Hk & _).
  split.
  - intros key m [Hm _]%Hk. by apply Hmd.
  - intros u favMap key f. rewrite Hf. apply Hfav.
Qed.

Lemma favoriteId_entry (st : t) (k : string) (now : Z) :
  keyed st →
  favoriteId (match articleMetadata st !! k with
              | Some m => FavSnapshot m now
              | None => FavMinimal k now
              end) = k.
Proof.
  intros [Hmd _]. destruct (articleMetadata st !! k) as [m|] eqn:Hm; [|done].
  simpl. by apply Hmd.
Qed.

(** X13.  In every store the singleton goes through, each metadata entry
    is filed under the id derived from its own URL and carries that id,
    and each favorites entry is filed under the id it carries. *)
Theorem reachable_keyed (st : t) : reachable st → keyed st.
Proof.
  induction 1 as [|st a now _ IH|st u a now now' _ IH|st u k now _ IH
                  |st u a now now' now'' _ IH|st u k now _ IH|st u k _ IH
                  |st m now _ IH].
  - split; intros *; unfold new; simpl; by rewrite lookup_empty.
  - by apply keyed_storeArticleMetadata.
  - apply (keyed_storeArticleMetadata _ a now) in IH.
    unfold markAsRead. destruct (storeArticleMetadata st a now) as [k st1].
    cbn [snd] in *. destruct IH as [Hmd Hfav]. by split.
  - destruct IH as [Hmd Hfav]. by split.
  - apply (keyed_storeArticleMetadata _ a now) in IH.
    unfold markAsFavorite.
    destruct (storeArticleMetadata st a now) as [k st1]. cbn [snd] in *.
    apply keyed_putFavorite; [|done]. by apply favoriteId_entry.
  - unfold markAsFavoriteById. cbn [snd].
    apply keyed_putFavorite; [|done]. by apply favoriteId_entry.
  - by apply keyed_removeFavorite.
  - by apply keyed_clearOldMetadata.
Qed.

Lemma snapshots_putFavorite (st : t) (u : userId) (k : string) (now : Z) :
  snapshots_current st →
  snapshots_current
    (putFavorite st u k (match articleMetadata st !! k with
                         | Some m => FavSnapshot m now
                         | None => FavMinimal k now
                         end)).
Proof.
  intros Hs u' favMap key m at_ Hu' Hkey.
  change (articleMetadata (putFavorite st u k _)) with (articleMetadata st).
  destruct (decide (u = u')) as [<-|Hne].
  - rewrite putFavorite_lookup in Hu'. injection Hu' as <-.
    rewrite lookup_insert in Hkey. case_decide as Hk.
    + subst key. destruct (articleMetadata st !! k) as [m0|] eqn:Hm; [|done].
      by injection Hkey as -> _.
    + destruct (favoriteArticles st !! u) as [fm|] eqn:Hu; simpl in Hkey.
      * by apply (Hs u fm key m at_).
      * by rewrite lookup_empty in Hkey.
  - rewrite putFavorite_lookup_ne in Hu' by done.
    by apply (Hs u' favMap key m at_).
Qed.

Lemma snapshots_storeArticleMetadata (st : t) (a : article) (now : Z) :
  snapshots_current st → snapshots_current (storeArticleMetadata st a now).2.
Proof.
  intros Hs u favMap key m at_.
  destruct (storeArticleMetadata_keeps st a now) as (_ & Hf & Hsub & _).
  rewrite Hf. intros Hu Hkey.
  eapply lookup_weaken; [|exact Hsub]. by apply (Hs u favMap key m at_).
Qed.

(** X14.  In every store the singleton goes through, a full favorites
    entry is a copy of the metadata stored under its id at that moment:
    metadata is written once and the sweep never removes the metadata of
    a favorite. *)
Theorem reachable_snapshots_current (st : t) :
  reachable st → snapshots_current st.
Proof.
  induction 1 as [|st a now _ IH|st u a now now' _ IH|st u k now _ IH
                  |st u a now now' now'' _ IH|st u k now _ IH|st u k _ IH
                  |st m now _ IH].
  - intros u favMap key m at_. unfold new. simpl. by rewrite lookup_empty.
  - by apply snapshots_storeArticleMetadata.
  - apply (snapshots_storeArticleMetadata _ a now) in IH.
    unfold markAsRead. by destruct (storeArticleMetadata st a now).
  - done.
  - apply (snapshots_storeArticleMetadata _ a now) in IH.
    unfold markAsFavorite.
    destruct (storeArticleMetadata st a now) as [k st1]. cbn [snd] in *.
    by apply snapshots_putFavorite.
  - unfold markAsFavoriteById. cbn [snd]. by apply snapshots_putFavorite.
  - intros u' favMap key m at_ Hu' Hkey. rewrite removeFavorite_metadata.
    destruct (decide (u = u')) as [<-|Hne].
    + pose proof (removeFavorite_lookup st u k) as Hdel.
      rewrite Hu' in Hdel. simpl in Hdel. subst favMap.
      apply lookup_delete_Some in Hkey as [_ Hkey].
      destruct (favoriteArticles st !! u) as [fm|] eqn:Hu; simpl in Hkey.
      * by apply (IH u fm key m at_).
      * by rewrite lookup_empty in Hkey.
    + rewrite removeFavorite_lookup_ne in Hu' by done.
      by apply (IH u' favMap key m at_).
  - intros u favMap key md at_.
    destruct (clearOldMetadata_keeps st m now) as (_ & Hf & Hk & _).
    rewrite Hf. intros Hu Hkey. apply Hk.
    split; [by apply (IH u favMap key md at_)|].
    intros [_ Hnot]. apply Hnot. exists u, favMap. split; [done|].
    by rewrite Hkey.
Qed.

(** X15.  Sweeping twice with the same [maxAge] at the same time is
    sweeping once: the second sweep deletes nothing, returns 0 and leaves
    the store as the first left it. *)
Theorem clearOldMetadata_idempotent (st : t) (maxAge_arg : option Z) (now : Z) :
  let st1 := (clearOldMetadata st maxAge_arg now).2 in
  clearOldMetadata st1 maxAge_arg now = (0, st1).
Proof.
  intros st1.
  destruct (clearOldMetadata_keeps st maxAge_arg now) as (Hr1 & Hf1 & Hk1 & _).
  destruct (clearOldMetadata_keeps st1 maxAge_arg now) as (Hr2 & Hf2 & Hk2 & Hn2).
  fold st1 in Hr1, Hf1, Hk1.
  assert (∀ k, favorited st1 k ↔ favorited st k) as Hfav.
  { intros k. unfold favorited. by rewrite Hf1. }
  assert (articleMetadata (clearOldMetadata st1 maxAge_arg now).2
          = articleMetadata st1) as Hmd.
  { apply map_eq. intros k. apply option_eq. intros m. rewrite Hk2.
    split; [tauto|]. intros Hm. split; [done|]. rewrite Hfav.
    by apply Hk1 in Hm as [_ ?]. }
  rewrite Hmd in Hn2.
  destruct (clearOldMetadata st1 maxAge_arg now) as [n st2]. simpl in *.
  f_equal; [lia|]. by apply store_ext.
Qed.

Lemma reachable_keyed_witness :
  keyed (markAsFavorite new 1 (NewsService.sampleArticle "https://x.example/1")
           0 1 2).2.
Proof. apply reachable_keyed. apply visit_markAsFavorite, visit_new. Defined.

Lemma reachable_snapshots_current_witness :
  snapshots_current
    (clearOldMetadata
       (markAsFavorite new 1 (NewsService.sampleArticle "https://x.example/1")
          0 1 2).2 (Some 10%Z) 5000).2.
Proof.
  apply reachable_snapshots_current.
  apply visit_clearOldMetadata, visit_markAsFavorite, visit_new.
Defined.

Lemma clearOldMetadata_empty (st : t) (maxAge_arg : option Z) (now : Z) :
  articleMetadata st = ∅ → clearOldMetadata st maxAge_arg now = (0, st).
Proof.
  intros Hmd.
  destruct (clearOldMetadata_keeps st maxAge_arg now) as (Hr & Hf & Hk & Hn).
  rewrite Hmd, map_size_empty in Hn.
  destruct (clearOldMetadata st maxAge_arg now) as [n st']. simpl in *.
  f_equal; [lia|]. apply store_ext; [done..|].
  rewrite Hmd. apply map_eq. intros k. rewrite lookup_empty.
  apply eq_None_not_Some. intros [m [Hm _]%Hk]. by rewrite Hmd in Hm.
Qed.

End ArticleMore.

Module ArticleControllerMore.
Import Article ArticleProps ArticleMore.

Lemma controller_removeFavorite_store (st : t) (u : userId) (k : string) :
  (ArticleController.removeFavorite st u k).2 = (removeFavorite st u k).2.
Proof.
  unfold ArticleController.removeFavorite.
  destruct (removeFavorite st u k) as [[] st']; done.
Qed.

(** what the routes keep: no metadata, and bare favorites entries only *)
Lemma served_bare (st : t) :
  ArticleController.served st →
  articleMetadata st = ∅
  ∧ ∀ u favMap k f, favoriteArticles st !! u = Some favMap →
      favMap !! k = Some f → ∃ at_, f = FavMinimal k at_.
Proof.
  induction 1 as [|st u k now _ [IHm IHf]|st u k now _ [IHm IHf]
                  |st u k _ [IHm IHf]|st now _ [IHm IHf]].
  - split; [done|]. intros u favMap k f. unfold new. simpl.
    by rewrite lookup_empty.
  - unfold ArticleController.markAsRead, markAsReadById. cbn [snd].
    by split.
  - unfold ArticleController.markAsFavorite, markAsFavoriteById. cbn [snd].
    split; [done|]. intros u' favMap key f Hu' Hkey.
    destruct (decide (u = u')) as [<-|Hne].
    + rewrite putFavorite_lookup in Hu'. injection Hu' as <-.
      rewrite lookup_insert in Hkey. case_decide as Hk.
      * subst key. rewrite IHm, lookup_empty in Hkey. injection Hkey as <-.
        eauto.
      * destruct (favoriteArticles st !! u) as [fm|] eqn:Hu; simpl in Hkey.
        -- by apply (IHf u fm).
        -- by rewrite lookup_empty in Hkey.
    + rewrite putFavorite_lookup_ne in Hu' by done. by apply (IHf u' favMap).
  - rewrite controller_removeFavorite_store.
    split; [by rewrite removeFavorite_metadata|].
    intros u' favMap key f Hu' Hkey.
    destruct (decide (u = u')) as [<-|Hne].
    + pose proof (removeFavorite_lookup st u k) as Hdel.
      rewrite Hu' in Hdel. simpl in Hdel. subst favMap.
      apply lookup_delete_Some in Hkey as [_ Hkey].
      destruct (favoriteArticles st !! u) as [fm|] eqn:Hu; simpl in Hkey.
      * by apply (IHf u fm).
      * by rewrite lookup_empty in Hkey.
    + rewrite removeFavorite_lookup_ne in Hu' by done.
      by apply (IHf u' favMap).
  - rewrite clearOldMetadata_empty by done. by split.
Qed.

(** X16.  The routes never store metadata: the application only marks by
    id, so in every store it goes through the metadata map is empty.  The
    read-list route then answers with no article and a [totalRead] of 0
    however many articles the user has marked, every favorite is the bare
    [{id, favoritedAt}], [totalArticlesTracked] is 0, and the periodic
    metadata sweep deletes nothing. *)
Theorem served_stores_no_metadata (st : t) :
  ArticleController.served st →
  articleMetadata st = ∅
  ∧ (∀ u, ArticleController.getReadArticles st u
          = ArticleController.ReadListResponse 200 0 [])
  ∧ (∀ u, totalArticlesTracked (ArticleController.getArticleStats st u).2 = 0)
  ∧ (∀ u f, f ∈ ArticleController.fl_articles
                  (ArticleController.getFavoriteArticles st u) →
       ∃ k at_, f = FavMinimal k at_ ∧ isFavorite st u k = true)
  ∧ (∀ maxAge_arg now, clearOldMetadata st maxAge_arg now = (0, st)).
Proof.
  intros [Hmd Hfav]%served_bare.
  split; [done|]. split; [|split; [|split]].
  - intros u. unfold ArticleController.getReadArticles, getReadArticles.
    destruct (readArticles st !! u) as [s|]; [|done].
    assert (omap (λ id, articleMetadata st !! id) (elements s) = []) as ->;
      [|done].
    rewrite Hmd. induction (elements s) as [|k l IH]; [done|].
    csimpl. by rewrite lookup_empty.
  - intros u. unfold ArticleController.getArticleStats, getUserStats.
    cbn [snd totalArticlesTracked]. by rewrite Hmd, map_size_empty.
  - intros u f. unfold ArticleController.getFavoriteArticles.
    cbn [ArticleController.fl_articles]. unfold getFavoriteArticles, isFavorite.
    destruct (favoriteArticles st !! u) as [favMap|] eqn:Hu;
      [|by intros ?%elem_of_nil].
    intros ([k f'] & -> & Hin%elem_of_map_to_list)%list_elem_of_fmap.
    destruct (Hfav u favMap k f' Hu Hin) as [at_ ->].
    exists k, at_. split; [done|]. apply bool_decide_eq_true. eauto.
  - intros maxAge_arg now. by apply clearOldMetadata_empty.
Qed.

Lemma served_stores_no_metadata_witness :
  ArticleController.getReadArticles
    (ArticleController.markAsRead new 1 "abc" 5).2 1
  = ArticleController.ReadListResponse 200 0 [].
Proof.
  destruct (served_stores_no_metadata
              (ArticleController.markAsRead new 1 "abc" 5).2) as (_ & H & _).
  - apply ArticleController.served_markAsRead, ArticleController.served_new.
  - exact (H 1).
Defined.

End ArticleControllerMore.


(* ===================================================================== *)
(** * Properties of the user model *)
(* ===================================================================== *)

Module UserMore.
Import User.

Section Find.
Context {A : Type} (Q : A → Prop) `{!∀ x, Decision (Q x)}.

Lemma find_snoc (l : list A) (x : A) :
  snd <$> list_find Q (l ++ [x])
  = match snd <$> list_find Q l with
    | Some y => Some y
    | None => if decide (Q x) then Some x else None
    end.
Proof.
  induction l as [|y l IH]; simpl.
  - by destruct (decide (Q x)).
  - destruct (decide (Q y)); [done|].
    destruct (list_find Q (l ++ [x])) as [[i z]|],
             (list_find Q l) as [[j w]|]; simpl in *; congruence.
Qed.

Lemma find_None (l : list A) :
  list_find Q l = None ↔ ∀ x, x ∈ l → ¬ Q x.
Proof. by rewrite list_find_None, Forall_forall. Qed.

(** replacing the found element by one that still matches *)
Lemma find_insert_same (l : list A) (i : nat) (x x' : A) :
  list_find Q l = Some (i, x) → Q x' →
  list_find Q (<[i := x']> l) = Some (i, x').
Proof.
  revert i. induction l as [|y l IH]; intros i; simpl; [done|].
  destruct (decide (Q y)) as [Hy|Hy].
  - intros [= <- <-] Hx'. simpl. by rewrite decide_True.
  - destruct (list_find Q l) as [[j z]|] eqn:Hl; simpl; [|done].
    intros [= <- <-] Hx'. simpl. rewrite decide_False by done.
    by rewrite (IH j eq_refl Hx').
Qed.

(** replacing or removing an element that does not match *)
Lemma find_insert_other (l : list A) (i : nat) (x x' : A) :
  l !! i = Some x → ¬ Q x → ¬ Q x' →
  snd <$> list_find Q (<[i := x']> l) = snd <$> list_find Q l.
Proof.
  revert i. induction l as [|y l IH]; intros [|i]; simpl; try done.
  - intros [= ->] Hx Hx'. by rewrite !decide_False by done.
  - intros Hi Hx Hx'. destruct (decide (Q y)); [done|].
    specialize (IH i Hi Hx Hx').
    destruct (list_find Q (<[i:=x']> l)) as [[? ?]|],
             (list_find Q l) as [[? ?]|]; simpl in *; congruence.
Qed.

Lemma find_delete_other (l : list A) (i : nat) (x : A) :
  l !! i = Some x → ¬ Q x →
  snd <$> list_find Q (delete i l) = snd <$> list_find Q l.
Proof.
  revert i. induction l as [|y l IH]; intros [|i]; simpl; try done.
  - intros [= ->] Hx. rewrite decide_False by done.
    by destruct (list_find Q l) as [[? ?]|].
  - intros Hi Hx. destruct (decide (Q y)); [done|].
    specialize (IH i Hi Hx).
    destruct (list_find Q (delete i l)) as [[? ?]|],
             (list_find Q l) as [[? ?]|]; simpl in *; congruence.
Qed.
End Find.

Lemma ids_middle (l : list user) (i : nat) (u : user) :
  l !! i = Some u → NoDup (id <$> l) →
  ∀ y, y ∈ delete i l → id y ≠ id u.
Proof.
  intros Hi Hnd y Hy Heq.
  rewrite <-(take_drop_middle l i u Hi) in Hnd.
  rewrite fmap_app, fmap_cons in Hnd.
  apply NoDup_app in Hnd as (_ & Hleft & Hright).
  apply NoDup_cons in Hright as [Hright _].
  rewrite delete_take_drop in Hy. apply elem_of_app in Hy as [Hy|Hy].
  - apply (Hleft (id y)); [by apply list_elem_of_fmap_2|]. rewrite Heq. left.
  - apply Hright. rewrite <-Heq. by apply list_elem_of_fmap_2.
Qed.

(** X17.  Ids are never reused: in every state the model goes through
    (no update overriding an id) the ids of the stored users are pairwise
    distinct, positive and smaller than the id the next [create] hands
    out, also after deletions. *)
Theorem reachable_fresh_ids (m : t) : reachable m → fresh_ids m.
Proof.
  induction 1 as [|m d now now' _ (Hnd & Hpos & Hlt)|m k d now _ (Hnd & Hpos & Hlt) Hd
                  |m k _ (Hnd & Hpos & Hlt)].
  - split; [constructor|]. split; [done|]. by intros ? ?%elem_of_nil.
  - unfold create, fresh_ids. cbn zeta. cbn [snd users currentId].
    split; [|split; [lia|]].
    + rewrite fmap_app. apply NoDup_app. split; [done|]. split.
      * intros k (u & -> & Hu%Hlt)%list_elem_of_fmap.
        simpl. rewrite list_elem_of_singleton. lia.
      * simpl. apply NoDup_singleton.
    + intros u [Hu%Hlt|Hu%list_elem_of_singleton]%elem_of_app; [lia|].
      subst u. simpl. lia.
  - unfold update.
    destruct (list_find _ (users m)) as [[i u]|] eqn:Hfind; [|by split].
    apply list_find_Some in Hfind as (Hi & Hk & _).
    unfold fresh_ids. cbn [snd users currentId].
    assert (id (merge u d now) = id u) as Hsame
      by (unfold merge; simpl; by rewrite Hd).
    split; [|split; [done|]].
    + rewrite list_fmap_insert, Hsame, list_insert_id; [done|].
      by rewrite list_lookup_fmap, Hi.
    + intros y Hy. apply list_elem_of_lookup in Hy as [j Hj].
      destruct (decide (i = j)) as [<-|Hne].
      * rewrite list_lookup_insert_eq in Hj
          by (by eapply lookup_lt_Some). injection Hj as <-.
        rewrite Hsame. apply Hlt. by eapply list_elem_of_lookup_2.
      * rewrite list_lookup_insert_ne in Hj by done.
        apply Hlt. by eapply list_elem_of_lookup_2.
  - unfold delete_.
    destruct (list_find _ (users m)) as [[i u]|] eqn:Hfind; [|by split].
    unfold fresh_ids. cbn [snd users currentId]. split; [|split; [done|]].
    + rewrite list_fmap_delete.
      apply (sublist_NoDup _ _ Hnd), sublist_delete.
    + intros y Hy%list_elem_of_delete_inv. by apply Hlt.
Qed.

Lemma reachable_fresh_ids_witness :
  fresh_ids
    (delete_ (create (create new (UserData "a@x.org" "secret1" "Ann" None) 0 0).2
                (UserData "b@x.org" "secret2" "Bob" (Some ["ai"])) 1 1).2 1).2.
Proof.
  apply reachable_fresh_ids.
  apply step_delete, step_create, step_create, step_new.
Defined.

(** X18.  [create] hands out the next id and appends the user: the new
    user is found under the new id, every other id finds what it found
    before, and [findByEmail] keeps answering with the oldest user of an
    email, the new user only when no earlier user has the email. *)
Theorem create_then_find (m : t) (d : userData) (now now' : Z) :
  fresh_ids m →
  let user := (create m d now now').1 in
  let m' := (create m d now now').2 in
  id user = currentId m
  ∧ preferences user = default [] (d_preferences d)
  ∧ findAll m' = findAll m ++ [user]
  ∧ currentId m' = S (currentId m)
  ∧ findById m' (id user) = Some user
  ∧ (∀ k, k ≠ id user → findById m' k = findById m k)
  ∧ (∀ e, findByEmail m' e
          = match findByEmail m e with
            | Some older => Some older
            | None => if decide (d_email d = e) then Some user else None
            end).
Proof.
  intros (Hnd & Hpos & Hlt) user m'. unfold user, m', create, findById,
    findByEmail, findAll. cbn [fst snd users currentId id].
  split; [done|]. split; [done|]. split; [done|]. split; [done|].
  split; [|split].
  - rewrite find_snoc.
    assert (list_find (λ u, id u = currentId m) (users m) = None) as ->.
    { apply find_None. intros u Hu%Hlt. lia. }
    simpl. by rewrite decide_True.
  - intros k Hk. rewrite find_snoc.
    destruct (snd <$> list_find _ (users m)); [done|].
    simpl. rewrite decide_False; [done|]. by intros <-.
  - intros e. by rewrite find_snoc.
Qed.

Lemma create_then_find_witness :
  findById (create new (UserData "a@x.org" "secret1" "Ann" None) 0 0).2 1
  = Some (MkUser 1 "a@x.org" "secret1" "Ann" [] 0 0).
Proof.
  destruct (create_then_find new (UserData "a@x.org" "secret1" "Ann" None) 0 0)
    as (_ & _ & _ & _ & H & _).
  - split; [constructor|]. split; [done|]. by intros ? ?%elem_of_nil.
  - exact H.
Defined.

(** X19.  [update] answers null exactly when no user has the id, and then
    changes nothing; otherwise it merges the data into the first user of
    that id, in place, stamps [updatedAt], and (the data not overriding
    the id) that id then finds the merged user while every other id finds
    what it found before. *)
Theorem update_merges_in_place (m : t) (k : nat) (d : updateData) (now : Z) :
  ((update m k d now).1 = None ↔ findById m k = None)
  ∧ (findById m k = None → (update m k d now).2 = m)
  ∧ (∀ user, findById m k = Some user →
       (update m k d now).1 = Some (merge user d now)
       ∧ updatedAt (merge user d now) = now
       ∧ length (findAll (update m k d now).2) = length (findAll m)
       ∧ currentId (update m k d now).2 = currentId m
       ∧ (upd_id d = None →
            findById (update m k d now).2 k = Some (merge user d now)
            ∧ ∀ k', k' ≠ k →
                findById (update m k d now).2 k' = findById m k')).
Proof.
  unfold update, findById, findAll.
  destruct (list_find (λ u, id u = k) (users m)) as [[i u]|] eqn:Hfind;
    cbn [fst snd users currentId].
  - split; [done|]. split; [done|]. intros user [= <-].
    split; [done|]. split; [done|]. split; [apply length_insert|].
    split; [done|]. intros Hd.
    pose proof Hfind as (Hi & Hk & _)%list_find_Some.
    assert (id (merge u d now) = k) as Hsame
      by (unfold merge; simpl; by rewrite Hd).
    split.
    + by rewrite (find_insert_same _ _ _ _ _ Hfind Hsame).
    + intros k' Hne. apply (find_insert_other _ _ _ u); [done|..]; congruence.
  - split; [done|]. split; [done|]. by intros user [=].
Qed.

(** X20.  [delete] answers [true] exactly when a user has the id and
    [false] without changing anything otherwise; it removes the first
    user of the id, so with distinct ids the id then finds nobody, while
    every other id finds what it found before; the next id is not moved
    back. *)
Theorem delete_removes_user (m : t) (k : nat) :
  ((delete_ m k).1 = true ↔ is_Some (findById m k))
  ∧ ((delete_ m k).1 = false → (delete_ m k).2 = m)
  ∧ (∀ k', k' ≠ k → findById (delete_ m k).2 k' = findById m k')
  ∧ currentId (delete_ m k).2 = currentId m
  ∧ (fresh_ids m → findById (delete_ m k).2 k = None)
  ∧ ((delete_ m k).1 = true →
       S (length (findAll (delete_ m k).2)) = length (findAll m)).
Proof.
  unfold delete_, findById, findAll.
  destruct (list_find (λ u, id u = k) (users m)) as [[i u]|] eqn:Hfind;
    cbn [fst snd users currentId].
  - pose proof Hfind as (Hi & Hk & _)%list_find_Some.
    split; [by split; eauto|]. split; [done|]. split; [|split; [done|split]].
    + intros k' Hne. apply (find_delete_other _ _ _ u); [done|]. congruence.
    + intros (Hnd & _). 
      assert (list_find (λ u0, id u0 = k) (delete i (users m)) = None) as ->;
        [|done].
      apply find_None. intros y Hy. rewrite <-Hk.
      by apply (ids_middle (users m) i).
    + intros _. rewrite length_delete by eauto.
      apply lookup_lt_Some in Hi. lia.
  - split; [split; [done|by intros [? ?]]|]. by rewrite Hfind.
Qed.

End UserMore.

Module NewsServiceMore.
Import CacheService Article NewsService.

Lemma searchKey (query : string) :
  generateKey (λ v : string, v) "search" [("query", query)]
  = "search:query:" +:+ query.
Proof. reflexivity. Qed.

Lemma searchKey_inj (q q' : string) :
  generateKey (λ v : string, v) "search" [("query", q)]
  = generateKey (λ v : string, v) "search" [("query", q')] → q = q'.
Proof. rewrite !searchKey. intros H. by simplify_eq/=. Qed.

(** after a miss, the cache holds nothing under the key *)
Lemma get_miss_lookup {V} (c : CacheService.t V) key now :
  (get c key now).1 = None →
  CacheService.cache (get c key now).2 !! key = None
  ∨ ∃ e, CacheService.cache c !! key = Some e ∧ value e = None ∧ (get c key now).2 = c.
Proof.
  unfold get. destruct (CacheService.cache c !! key) as [e|] eqn:He; [|by left].
  case_decide; cbn [fst snd CacheService.cache].
  - intros _. left. apply lookup_delete_eq.
  - intros Hv. right. by exists e.
Qed.

(** a lookup under another key reads the same whatever happened to [key] *)
Lemma get_other_key {V} (c c' : CacheService.t V) key now :
  CacheService.cache c' !! key = CacheService.cache c !! key → (get c' key now).1 = (get c key now).1.
Proof.
  unfold get. intros ->. destruct (CacheService.cache c !! key) as [e|]; [|done].
  by case_decide.
Qed.

(** X21.  A search answered by the provider is written back: as long as the
    clock has not passed the write-back reading plus [cacheTTL], the next
    search for the same query is answered from the cache with the same
    [totalArticles] and [articles], flagged [fromCache], whatever the
    provider would answer now, and the cache is left as it is. *)
Theorem searchNews_cache_round_trip (svc : NewsService.t) (c : cache)
    (query : string) (now now' stamp later later' stamp' : Z)
    (reply reply' : axiosFailure + apiData) (r : searchResult) :
  (searchNews svc c query now reply now' stamp).1 = inr r →
  fromCache r = false →
  (later ≤ now' + cacheTTL svc)%Z →
  let c1 := (searchNews svc c query now reply now' stamp).2 in
  searchNews svc c1 query later reply' later' stamp'
  = (inr (SearchResult (success r) (totalArticles r) (articles r) true), c1).
Proof.
  unfold searchNews.
  destruct (get c _ now) as [[hit|] c0]; cbn [fst snd].
  { intros [= <-]. done. }
  destruct reply as [error|data]; cbn [fst snd]; [done|].
  intros [= <-] _ Hlater.
  rewrite (CacheServiceProps.get_present _ _ _ later
             (CacheServiceProps.set_lookup c0 _ _ _ now' stamp)).
  cbn [expiresAt value default from_option Datatypes.id].
  by rewrite decide_True by lia.
Qed.

Lemma searchNews_cache_round_trip_witness :
  (searchNews (NewsService.new (Some "key"))
     (searchNews (NewsService.new (Some "key")) CacheService.new "ai" 0
        (inr (ApiData (Some 1) (Some [sampleArticle "https://a.example/1"])))
        5 5).2
     "ai" 300005 (inl NoResponse) 300005 300005).1
  = inr (SearchResult true (Some 1) (Some [sampleArticle "https://a.example/1"])
           true).
Proof.
  rewrite (searchNews_cache_round_trip (NewsService.new (Some "key"))
             CacheService.new "ai" 0 5 5 300005 300005 300005
             (inr (ApiData (Some 1) (Some [sampleArticle "https://a.example/1"])))
             (inl NoResponse)
             (SearchResult true (Some 1)
                (Some [sampleArticle "https://a.example/1"]) false));
    [reflexivity|reflexivity|reflexivity|vm_compute; discriminate].
Defined.

(** X22.  A failed search is not cached: when [searchNews] rejects, the
    rejection is [handleError] of the provider failure, and the next
    search for the same query, at whatever time, goes to the provider
    again and settles to what the provider answers then. *)
Theorem searchNews_failure_not_cached (svc : NewsService.t) (c : cache)
    (query : string) (now now' stamp later later' stamp' : Z)
    (reply reply' : axiosFailure + apiData) (err : apiError) :
  (searchNews svc c query now reply now' stamp).1 = inl err →
  let c1 := (searchNews svc c query now reply now' stamp).2 in
  (∃ error, reply = inl error ∧ err = handleError error)
  ∧ (searchNews svc c1 query later reply' later' stamp').1
    = match reply' with
      | inr data =>
          inr (SearchResult true (d_totalArticles data) (d_articles data) false)
      | inl error' => inl (handleError error')
      end.
Proof.
  unfold searchNews.
  set (key := generateKey _ _ _).
  pose proof (get_miss_lookup c key now) as Hmiss.
  destruct (get c key now) as [[hit|] c0] eqn:Hget; cbn [fst snd] in *; [done|].
  destruct reply as [error|data]; cbn [fst snd]; [|done].
  intros [= <-]. split; [by exists error|].
  assert ((get c0 key later).1 = None) as Hnone.
  { destruct (Hmiss eq_refl) as [Hk|(e & He & Hv & ->)].
    - unfold get. by rewrite Hk.
    - unfold get. rewrite He. case_decide; [done|]. done. }
  destruct (get c0 key later) as [[hit|] c2]; cbn [fst] in Hnone; [done|].
  by destruct reply'.
Qed.

Lemma searchNews_failure_not_cached_witness :
  (searchNews (NewsService.new (Some "key"))
     (searchNews (NewsService.new (Some "key")) CacheService.new "ai" 0
        (inl NoResponse) 5 5).2
     "ai" 6 (inr (ApiData (Some 0) (Some []))) 7 7).1
  = inr (SearchResult true (Some 0) (Some []) false).
Proof.
  destruct (searchNews_failure_not_cached (NewsService.new (Some "key"))
              CacheService.new "ai" 0 5 5 6 7 7 (inl NoResponse)
              (inr (ApiData (Some 0) (Some []))) (handleError NoResponse))
    as [_ H]; [reflexivity|exact H].
Defined.

(** X23.  Searches for different queries do not disturb each other: the
    cache key of a query is [search:query:] followed by the query, so a
    search for [q] changes nothing of what a later search for another
    query [q'] settles to. *)
Theorem searchNews_queries_independent (svc : NewsService.t) (c : cache)
    (q q' : string) (now now' stamp later later' stamp' : Z)
    (reply reply' : axiosFailure + apiData) :
  q ≠ q' →
  (searchNews svc (searchNews svc c q now reply now' stamp).2 q' later reply'
     later' stamp').1
  = (searchNews svc c q' later reply' later' stamp').1.
Proof.
  intros Hne.
  assert (generateKey (λ v : string, v) "search" [("query", q)]
          ≠ generateKey (λ v : string, v) "search" [("query", q')]) as Hkey
    by (by intros ?%searchKey_inj).
  unfold searchNews at 1 3.
  set (key := generateKey _ _ [("query", q)]) in *.
  set (key' := generateKey _ _ [("query", q')]) in *.
  set (c1 := (searchNews svc c q now reply now' stamp).2).
  assert (CacheService.cache c1 !! key' = CacheService.cache c !! key') as Hsame.
  { unfold c1, searchNews. fold key. unfold get.
    destruct (CacheService.cache c !! key) as [e|] eqn:He; cbn [snd].
    - case_decide; cbn [snd].
      + destruct reply; cbn [snd set CacheService.cache];
          rewrite ?lookup_insert_ne by done; by rewrite lookup_delete_ne.
      + destruct (value e); cbn [snd]; [done|].
        destruct reply; cbn [snd set CacheService.cache];
          by rewrite ?lookup_insert_ne by done.
    - destruct reply; cbn [snd set CacheService.cache];
        by rewrite ?lookup_insert_ne by done. }
  pose proof (get_other_key c c1 key' later Hsame) as Hget.
  destruct (get c1 key' later) as [[hit|] c2],
           (get c key' later) as [[hit'|] c3]; cbn [fst] in Hget;
    simplify_eq; [done|]. by destruct reply'.
Qed.

Lemma searchNews_queries_independent_witness :
  (searchNews (NewsService.new (Some "key"))
     (searchNews (NewsService.new (Some "key")) CacheService.new "ai" 0
        (inr (ApiData (Some 0) (Some []))) 5 5).2
     "sports" 6 (inl NoResponse) 7 7).1
  = (searchNews (NewsService.new (Some "key")) CacheService.new
       "sports" 6 (inl NoResponse) 7 7).1.
Proof.
  apply (searchNews_queries_independent (NewsService.new (Some "key"))
           CacheService.new "ai" "sports" 0 5 5 6 7 7).
  discriminate.
Defined.

(** X24.  [handleError] always yields an error with a non-empty message;
    it is flagged as an API error exactly when the provider responded,
    and then carries the provider's status; it is flagged as a network
    error exactly when no response arrived, with status 503; any other
    failure gets status 500, and no error carries both flags. *)
Theorem handleError_classifies (error : axiosFailure) :
  e_message (handleError error) ≠ ""
  ∧ (isApiError (handleError error) = true
     ↔ ∃ status firstError message,
         error = HttpFailure status firstError message
         ∧ e_status (handleError error) = status)
  ∧ (isNetworkError (handleError error) = true
     ↔ error = NoResponse ∧ e_status (handleError error) = 503%Z)
  ∧ (isApiError (handleError error) = false →
     isNetworkError (handleError error) = false →
     e_status (handleError error) = 500%Z)
  ∧ ¬ (isApiError (handleError error) = true
       ∧ isNetworkError (handleError error) = true).
Proof.
  assert (∀ a b, b ≠ "" → orElse a b ≠ "") as Hor.
  { intros [s|] b Hb; simpl; [|done]. by case_decide. }
  split; [|split; [|split; [|split]]].
  - destruct error as [status firstError message| |message]; simpl.
    + repeat case_decide; try done. by do 2 apply Hor.
    + done.
    + by apply Hor.
  - destruct error; simpl; split; try done; eauto.
    + by intros (? & ? & ? & ? & _).
    + by intros (? & ? & ? & ? & _).
  - destruct error; simpl; split; try done; by intros [? _].
  - by destruct error.
  - destruct error; simpl; by intros [? ?].
Qed.

End NewsServiceMore.

Module NewsControllerMore.
Import Article NewsService NewsController.

Lemma project_id (a : article) : project a = a.
Proof. by destruct a as [? ? ? ? ? ? []]. Qed.

Lemma project_all (l : list article) : project <$> l = l.
Proof.
  induction l as [|a l IH]; [done|]. by rewrite fmap_cons, project_id, IH.
Qed.

Lemma contribution_failed (svc : NewsService.t) (c : cache) (now : Z)
    (reply : nat → string → axiosFailure + apiData) (prefs : list string) :
  (∀ i p, prefs !! i = Some p →
     ∃ err, (searchNews svc c p now (reply i p) now now).1 = inl err) →
  concat (imap (λ i p,
            contribution (searchNews svc c p now (reply i p) now now).1) prefs)
  = [].
Proof.
  revert reply. induction prefs as [|p prefs IH]; intros reply Hall; [done|].
  cbn [imap concat]. destruct (Hall 0 p eq_refl) as [err ->]. cbn [contribution].
  rewrite app_nil_l. apply (IH (λ i, reply (S i))).
  intros i q Hq. apply (Hall (S i) q Hq).
Qed.

(** X25.  [getNews] answers 503 when the service is not configured, 404
    when the user is unknown and 400 when the user has no preferences;
    otherwise it always answers 200, never with [fromCache], with the
    user's preferences and at most ten articles whose number is
    [totalArticles]: provider failures never reach the client, and when
    every search fails the answer is 200 with no article. *)
Theorem getNews_answers (svc : NewsService.t) (users : User.t) (userId : nat)
    (c : cache) (now : Z) (reply : nat → string → axiosFailure + apiData) :
  let res := getNews svc users userId c now reply in
  (isConfigured svc = false → status res = 503%Z)
  ∧ (isConfigured svc = true → User.findById users userId = None →
     status res = 404%Z)
  ∧ (∀ user, isConfigured svc = true →
       User.findById users userId = Some user →
       User.preferences user = [] → status res = 400%Z)
  ∧ (∀ user, isConfigured svc = true →
       User.findById users userId = Some user →
       User.preferences user ≠ [] →
       ∃ l, res = Response 200
                    (News "News fetched successfully" false
                       (User.preferences user) (Some (length l)) l)
            ∧ length l ≤ 10
            ∧ ((∀ i p, User.preferences user !! i = Some p →
                  ∃ err, (searchNews svc c p now (reply i p) now now).1
                         = inl err) → l = [])).
Proof.
  intros res. unfold res, getNews.
  split; [by intros ->|]. split; [by intros -> ->|].
  split; [by intros user -> -> ->|].
  intros user -> -> Hprefs. cbn [negb].
  destruct (User.preferences user) as [|p prefs] eqn:Hp; [done|].
  unfold personalize. rewrite NewsServiceProps.getPersonalizedNews_value.
  cbn [NewsService.articles NewsService.totalArticles fromCache].
  rewrite project_all.
  eexists. split; [done|]. split.
  - rewrite length_take. unfold max. lia.
  - intros Hall. by rewrite contribution_failed.
Qed.

Lemma getNews_answers_witness :
  status
    (getNews (NewsService.new (Some "key"))
       (User.create User.new
          (User.UserData "a@x.org" "secret1" "Ann" (Some ["ai"])) 0 0).2
       1 CacheService.new 0 (λ _ _, inl NoResponse))
  = 200%Z.
Proof.
  destruct (getNews_answers (NewsService.new (Some "key"))
              (User.create User.new
                 (User.UserData "a@x.org" "secret1" "Ann" (Some ["ai"])) 0 0).2
              1 CacheService.new 0 (λ _ _, inl NoResponse))
    as (_ & _ & _ & H).
  destruct (H (User.MkUser 1 "a@x.org" "secret1" "Ann" ["ai"] 0 0))
    as (l & -> & _); [vm_compute; reflexivity|reflexivity|discriminate|].
  reflexivity.
Defined.

End NewsControllerMore.

Module BackgroundJobServiceMore.
Import BackgroundJobService.

(** X26.  [getStatus] never reports a scheduler that is half installed:
    whatever calls of [start] and [stop] came before, its three job flags
    all equal [isRunning]. *)
Theorem getStatus_flags_agree (rt0 : runtime) (s : t) (rt : runtime) :
  reachable rt0 (s, rt) →
  getStatus s = (isRunning s, JobFlags (isRunning s) (isRunning s) (isRunning s)).
Proof.
  intros [(Hs & Hi & _)|(Hs & rt1 & d1 & d2 & d3 & _ & _ & Hi)]
    %BackgroundJobServiceProps.reachable_all_or_none;
    cbn [fst] in *; unfold getStatus; by rewrite Hs, Hi.
Qed.

Lemma getStatus_flags_agree_witness :
  getStatus (start new [] (Config None None None)).1
  = (true, JobFlags true true true).
Proof.
  exact (getStatus_flags_agree [] _ (start new [] (Config None None None)).2
           (reach_start [] new [] (Config None None None) (reach_new []))).
Defined.

End BackgroundJobServiceMore.
